(** * Order-book aggregation and greedy execution (src/main.cpp)

    A shallow embedding of the rate limiter, the two quote sources, the
    aggregation step of [main] and the execution matcher
    ([executeBuy], [executeSell]), with the properties the specification
    states about them.

    Numbers.  The program computes on C++ [double].  The matcher is written
    once, over an interface [DoubleOps] of the six operations it uses
    (literal zero, [+], [-], [*], [<], [<=]), and is read at two instances:
    - [binary64_ops], the kernel's IEEE 754 binary64 numbers, on which the
      runs are evaluated as the machine evaluates them;
    - [Q_ops], exact rational arithmetic, in which the general properties
      of the algorithm are proved (equality of costs is [Qeq], written
      [==]).
    Rounding, infinities and NaN are outside the exact instance.  The two
    instances are related by [valQ], the rational value of a finite double,
    and by the executable predicates [exact_prices] and [exact_run]: they
    hold of a run on doubles in which every number met is finite and no
    operation rounds, and such a run returns the values of the exact
    instance ([buy_run_exact], [sell_run_exact]).  The properties that
    rounding breaks are stated of the runs on doubles under these
    predicates, and runs evaluated on [binary64_ops] show them fail
    without.

    Sorting.  [std::sort] arranges levels of equal price as it pleases.
    [std_sort] is one such sort, a stable insertion sort;
    [sorted_for comp input s] holds of every vector [s] a sort by [comp]
    may leave of [input], and the properties on doubles are proved of all
    of them. *)

From Stdlib Require Import PrimFloat.
From Stdlib Require FloatOps SpecFloat.
From Stdlib Require Import QArith Lqa ZArith Lia.
From Stdlib Require Import List Permutation Sorted Bool.
From Stdlib Require Import String Ascii.
Import ListNotations.

Set Implicit Arguments.

(* ================================================================= *)
(** ** The arithmetic interface *)

Class DoubleOps (num : Type) : Type := {
  zero : num;
  add : num -> num -> num;
  sub : num -> num -> num;
  mul : num -> num -> num;
  ltb : num -> num -> bool;
  leb : num -> num -> bool
}.

#[export] Instance Q_ops : DoubleOps Q := {|
  zero := 0%Q;
  add := Qplus;
  sub := Qminus;
  mul := Qmult;
  ltb := fun a b => negb (Qle_bool b a);
  leb := Qle_bool
|}.

#[export] Instance binary64_ops : DoubleOps PrimFloat.float := {|
  zero := PrimFloat.zero;
  add := PrimFloat.add;
  sub := PrimFloat.sub;
  mul := PrimFloat.mul;
  ltb := PrimFloat.ltb;
  leb := PrimFloat.leb
|}.

(* ================================================================= *)
(** ** Data model: [struct Order], [struct OrderBook] *)

Record Order (num : Type) : Type := mkOrder {
  price : num;
  qty : num
}.

Record OrderBook (num : Type) : Type := mkOrderBook {
  bids : list (Order num);
  asks : list (Order num)
}.

Arguments mkOrder {num} _ _.
Arguments mkOrderBook {num} _ _.

(* ================================================================= *)
(** ** The execution matcher *)

Section Matcher.
Context {num : Type} `{DoubleOps num}.

(** [std::min(a, b)]: [(b < a) ? b : a]. *)
Definition std_min (a b : num) : num := if ltb b a then b else a.

(** [std::sort(first, last, comp)].  The standard fixes the result only up
    to the order of elements that [comp] does not separate; the model is an
    insertion sort, which leaves such elements in their input order.
    [sorted_walk_unique] below shows that the matcher's result is the same
    for every sorted arrangement of the pool. *)
Fixpoint sort_insert (comp : Order num -> Order num -> bool)
         (x : Order num) (l : list (Order num)) : list (Order num) :=
  match l with
  | [] => [x]
  | y :: l' => if comp y x then y :: sort_insert comp x l' else x :: y :: l'
  end.

Fixpoint std_sort (comp : Order num -> Order num -> bool)
         (l : list (Order num)) : list (Order num) :=
  match l with
  | [] => []
  | x :: l' => sort_insert comp x (std_sort comp l')
  end.

(** The comparators of the two calls: [a.price < b.price] and
    [a.price > b.price]. *)
Definition price_less (a b : Order num) : bool := ltb (price a) (price b).
Definition price_greater (a b : Order num) : bool := ltb (price b) (price a).

(** The loop shared by [executeBuy] and [executeSell]
    ([for (auto& o : v) { take = min(qty, o.qty); cost += take * o.price;
    qty -= take; if (qty <= 0) break; }]), as a function of the levels
    still to visit and of the locals [qty] and [cost]; it returns the two
    locals at loop exit.  The loop reads the levels and writes only the
    locals. *)
Fixpoint walk (levels : list (Order num)) (remaining cost : num) : num * num :=
  match levels with
  | [] => (remaining, cost)
  | o :: rest =>
      let take := std_min remaining (qty o) in
      let cost' := add cost (mul take (price o)) in
      let remaining' := sub remaining take in
      if leb remaining' zero then (remaining', cost')
      else walk rest remaining' cost'
  end.

(** The locals [(qty, cost)] when [executeBuy] reaches its [return]. *)
Definition executeBuy_locals (asks : list (Order num)) (q : num) : num * num :=
  walk (std_sort price_less asks) q zero.

(** [double executeBuy(std::vector<Order>& asks, double qty)]: the vector
    as the call leaves it (it is passed by reference and sorted in place)
    and the returned cost. *)
Definition executeBuy (asks : list (Order num)) (q : num)
  : list (Order num) * num :=
  (std_sort price_less asks, snd (executeBuy_locals asks q)).

Definition executeSell_locals (bids : list (Order num)) (q : num) : num * num :=
  walk (std_sort price_greater bids) q zero.

(** [double executeSell(std::vector<Order>& bids, double qty)]. *)
Definition executeSell (bids : list (Order num)) (q : num)
  : list (Order num) * num :=
  (std_sort price_greater bids, snd (executeSell_locals bids q)).

(** The aggregation of [main] (lines 155-159): each pool is the first
    source's orders followed by the second's. *)
Definition aggregate (cb gm : OrderBook num) : list (Order num) * list (Order num) :=
  (bids cb ++ bids gm, asks cb ++ asks gm).

End Matcher.

(** The walk as the specification words it (section 4.4): stop as soon as
    the remaining quantity is [<= 0] or the levels are exhausted; otherwise
    take [min(remaining, level.quantity)], add [take * level.price] to the
    cost and decrement the remaining quantity by [take]. *)
Fixpoint spec_walk {num : Type} `{DoubleOps num}
         (levels : list (Order num)) (remaining cost : num) : num * num :=
  match levels with
  | [] => (remaining, cost)
  | o :: rest =>
      if leb remaining zero then (remaining, cost)
      else
        let take := std_min remaining (qty o) in
        spec_walk rest (sub remaining take) (add cost (mul take (price o)))
  end.

(** The runs the specification quotes (section 8). *)
Definition asks_example_Q : list (Order Q) :=
  [mkOrder 50000 (1 # 2); mkOrder 50010 2].
Definition asks_example_binary64 : list (Order float) :=
  [mkOrder 50000%float 0.5%float; mkOrder 50010%float 2%float].
Definition bids_example_Q : list (Order Q) :=
  [mkOrder 100 1; mkOrder 90 5].
Definition bids_example_binary64 : list (Order float) :=
  [mkOrder 100%float 1%float; mkOrder 90%float 5%float].


(** Two pools differ by ties when one is obtained from the other by
    exchanging neighbours of equal price: the freedom [std::sort] leaves. *)
Inductive tie_equiv : list (Order Q) -> list (Order Q) -> Prop :=
| tie_nil : tie_equiv [] []
| tie_skip x l l' : tie_equiv l l' -> tie_equiv (x :: l) (x :: l')
| tie_swap x y l : price x == price y -> tie_equiv (x :: y :: l) (y :: x :: l)
| tie_trans l1 l2 l3 : tie_equiv l1 l2 -> tie_equiv l2 l3 -> tie_equiv l1 l3.

(** Ascending and descending order of prices, and the invariants of the
    specification's data model (section 3: prices and quantities are
    positive), in the weaker form the proofs need. *)
Definition price_le (a b : Order Q) : Prop := price a <= price b.
Definition price_ge (a b : Order Q) : Prop := price b <= price a.
Definition nonneg_qty (o : Order Q) : Prop := 0 <= qty o.
Definition nonneg_price (o : Order Q) : Prop := 0 <= price o.

(** Total quantity and total value of a pool. *)
Fixpoint total_qty (l : list (Order Q)) : Q :=
  match l with
  | [] => 0
  | o :: l' => qty o + total_qty l'
  end.

Fixpoint total_value (l : list (Order Q)) : Q :=
  match l with
  | [] => 0
  | o :: l' => qty o * price o + total_value l'
  end.

Definition negate_price (o : Order Q) : Order Q := mkOrder (- price o) (qty o).

(** The price of the level the walk visits first ([0] for an empty pool). *)
Definition first_price (l : list (Order Q)) : Q :=
  match l with
  | [] => 0
  | o :: _ => price o
  end.

Definition nonneg_book (b : OrderBook Q) : Prop :=
  Forall nonneg_qty (bids b) /\ Forall nonneg_qty (asks b).

(** Orders are compared field by field, to count how often a pool holds
    one. *)
Definition Q_eq_dec (a b : Q) : {a = b} + {a <> b}.
Proof. decide equality; [apply Pos.eq_dec | apply Z.eq_dec]. Defined.

Definition Order_eq_dec (a b : Order Q) : {a = b} + {a <> b}.
Proof. decide equality; apply Q_eq_dec. Defined.

(* ================================================================= *)
(** ** Exceptions *)

(** The exceptions the program can meet: [json::parse_error],
    [json::type_error], [std::invalid_argument], [std::out_of_range].  No
    function of the program has a handler. *)
Inductive exn : Type :=
| parse_error
| type_error
| invalid_argument
| out_of_range.

Inductive result (A : Type) : Type :=
| Ok (a : A)
| Throw (e : exn).

Arguments Ok {A} _.
Arguments Throw {A} _.

Definition bind {A B : Type} (r : result A) (k : A -> result B) : result B :=
  match r with
  | Ok a => k a
  | Throw e => Throw e
  end.

Notation "x <- r ;; k" := (bind r (fun x => k))
  (at level 61, r at next level, right associativity).

(** A loop whose body may throw: the first exception ends it. *)
Fixpoint for_each {A B : Type} (body : A -> result B) (l : list A) : result (list B) :=
  match l with
  | [] => Ok []
  | a :: l' => b <- body a ;; bs <- for_each body l' ;; Ok (b :: bs)
  end.

(* ================================================================= *)
(** ** [class RateLimiter] *)

Module RateLimiter.

(** [2'000'000'000LL] nanoseconds. *)
Definition cooldown : Z := 2000000000.

(** [std::atomic<long long> lastCallNs{0}].  Clock readings are
    nanoseconds of [steady_clock]; for readings in [0, 2^63) the
    difference [now - last] the code computes is the mathematical one
    ([difference_in_range]). *)
Record t : Type := mk { lastCallNs : Z }.

Definition init : t := mk 0.

(** [cell.compare_exchange_strong(expected, desired)]: whether the
    exchange took place, and the cell afterwards. *)
Definition compare_exchange_strong (cell expected desired : Z) : bool * Z :=
  if (cell =? expected)%Z then (true, desired) else (false, cell).

(** [allow()] when no other call runs between its load and its
    compare-exchange; [now] is what [Clock::now()] returned. *)
Definition allow (now : Z) (s : t) : bool * t :=
  let last := lastCallNs s in
  if (now - last <? cooldown)%Z then (false, s)
  else
    let (ok, cell) := compare_exchange_strong (lastCallNs s) last now in
    (ok, mk cell).

(** *** Concurrent callers

    The two accesses to [lastCallNs] are sequentially consistent atomic
    operations, so an execution of several callers is an interleaving of
    their loads and compare-exchanges.  A caller is at one of three
    points of [allow()]. *)
Inductive caller : Type :=
| NotCalled
| Loaded (now last : Z)
| Returned (now : Z) (answer : bool).

Record system : Type := mkSystem {
  cell : Z;
  callers : nat -> caller
}.

Definition set_caller (f : nat -> caller) (i : nat) (c : caller) : nat -> caller :=
  fun j => if Nat.eqb j i then c else f j.

Inductive step : system -> system -> Prop :=
| step_load s i now :
    callers s i = NotCalled ->
    step s (mkSystem (cell s) (set_caller (callers s) i (Loaded now (cell s))))
| step_deny s i now last :
    callers s i = Loaded now last ->
    (now - last < cooldown)%Z ->
    step s (mkSystem (cell s) (set_caller (callers s) i (Returned now false)))
| step_exchange s i now last :
    callers s i = Loaded now last ->
    (cooldown <= now - last)%Z ->
    step s (mkSystem (snd (compare_exchange_strong (cell s) last now))
                     (set_caller (callers s) i
                        (Returned now (fst (compare_exchange_strong (cell s) last now))))).

Inductive reachable (c0 : Z) : system -> Prop :=
| reach_init : reachable c0 (mkSystem c0 (fun _ => NotCalled))
| reach_step s s' : reachable c0 s -> step s s' -> reachable c0 s'.

Definition granted (s : system) (i : nat) (now : Z) : Prop :=
  callers s i = Returned now true.

(** The invariant of the interleavings: the cell is no earlier than any
    granted reading, and granted readings are pairwise a cooldown
    apart. *)
Definition separated (s : system) : Prop :=
  (forall i n, granted s i n -> (n <= cell s)%Z) /\
  (forall i j ni nj, i <> j -> granted s i ni -> granted s j nj ->
     (cooldown <= Z.abs (ni - nj))%Z).

End RateLimiter.

(* ================================================================= *)
(** ** The JSON document of a response *)

(** A value of [nlohmann::json]. *)
#[local] Set Warnings "-register-all".
Inductive json : Type :=
| Jnull
| Jbool (b : bool)
| Jnumber (x : Q)
| Jstring (s : string)
| Jarray (elements : list json)
| Jobject (members : list (string * json)).

Fixpoint find_member (k : string) (members : list (string * json)) : json :=
  match members with
  | [] => Jnull
  | (k', v) :: rest => if String.eqb k k' then v else find_member k rest
  end.

(** [j[key]] on a non-const value: a missing key reads as null (it is
    inserted), null reads as an empty object, any other kind throws
    [type_error]. *)
Definition at_key (j : json) (k : string) : result json :=
  match j with
  | Jnull => Ok Jnull
  | Jobject members => Ok (find_member k members)
  | _ => Throw type_error
  end.

(** [j[idx]] on a non-const value: an index past the end reads as null (the
    array is filled up), null reads as an empty array, any other kind
    throws [type_error]. *)
Definition at_index (j : json) (idx : nat) : result json :=
  match j with
  | Jnull => Ok Jnull
  | Jarray elements => Ok (nth idx elements Jnull)
  | _ => Throw type_error
  end.

(** The values a range-[for] over [j] visits: the elements of an array, the
    values of an object, nothing for null, the value itself otherwise. *)
Definition items (j : json) : list json :=
  match j with
  | Jnull => []
  | Jarray elements => elements
  | Jobject members => map snd members
  | _ => [j]
  end.

(** [j.get<std::string>()]. *)
Definition get_string (j : json) : result string :=
  match j with
  | Jstring s => Ok s
  | _ => Throw type_error
  end.

(* ================================================================= *)
(** ** The quote sources *)

(** One run of [fetch()]: what it returns or throws, its limiter
    afterwards, and how many transfers ([curl_easy_perform]) it made. *)
Record fetch_run : Type := mkRun {
  outcome : result (OrderBook Q);
  limiter_after : RateLimiter.t;
  transfers : nat
}.

Definition empty_book : OrderBook Q := mkOrderBook [] [].

Section QuoteSources.

(** [std::stod]: the number a string starts with, or the exception it
    throws ([invalid_argument] when the string starts with no number). *)
Variable stod : string -> result Q.

(** A Coinbase level is an array [[price, size, ...]] of strings. *)
Definition coinbase_level (b : json) : result (Order Q) :=
  b0 <- at_index b 0 ;; s0 <- get_string b0 ;; p <- stod s0 ;;
  b1 <- at_index b 1 ;; s1 <- get_string b1 ;; q <- stod s1 ;;
  Ok (mkOrder p q).

(** A Gemini level is an object with string members [price] and
    [amount]. *)
Definition gemini_level (b : json) : result (Order Q) :=
  b0 <- at_key b "price" ;; s0 <- get_string b0 ;; p <- stod s0 ;;
  b1 <- at_key b "amount" ;; s1 <- get_string b1 ;; q <- stod s1 ;;
  Ok (mkOrder p q).

(** The body the two [fetch()] share, statement for statement; they
    differ in the URL and in how a level is read.  [now] is the clock
    reading of [limiter.allow()]; [parsed] is what [json::parse(response)]
    yields once the transfer has run: the document, or [parse_error] when
    the body is not a JSON text, which includes the empty body a failed
    transfer leaves. *)
Definition fetch_with (level : json -> result (Order Q))
           (limiter : RateLimiter.t) (now : Z) (parsed : result json) : fetch_run :=
  let (allowed, limiter') := RateLimiter.allow now limiter in
  if negb allowed then mkRun (Ok empty_book) limiter' 0
  else
    mkRun (j <- parsed ;;
           jb <- at_key j "bids" ;;
           bs <- for_each level (items jb) ;;
           ja <- at_key j "asks" ;;
           az <- for_each level (items ja) ;;
           Ok (mkOrderBook bs az))
          limiter' 1.

Definition CoinbaseExchange_fetch := fetch_with coinbase_level.
Definition GeminiExchange_fetch := fetch_with gemini_level.

(* =============================================================== *)
(** ** [main] *)

(** The two lines [main] prints, with the numbers they carry. *)
Inductive line : Type :=
| ToBuy (q cost : Q)
| ToSell (q revenue : Q).

(** How a run of the program ends: [main] returns (exit status and what
    was printed), or an exception leaves [main] and the run is terminated
    with nothing printed. *)
Inductive ending : Type :=
| Exit (status : Z) (printed : list line)
| Terminated (e : exn).

Definition default_qty : Q := 10.

(** [if (argc == 3 && std::string(argv[1]) == "--qty") qty = std::stod(argv[2]);] *)
Definition parse_qty (argv : list string) : result Q :=
  match argv with
  | [_; flag; value] =>
      if String.eqb flag "--qty" then stod value else Ok default_qty
  | _ => Ok default_qty
  end.

(** [main]: both exchanges are built in [main], so each limiter starts
    at [RateLimiter.init]. *)
Definition main (argv : list string)
           (now_cb : Z) (parsed_cb : result json)
           (now_gm : Z) (parsed_gm : result json) : ending :=
  match
    (q <- parse_qty argv ;;
     cb <- outcome (CoinbaseExchange_fetch RateLimiter.init now_cb parsed_cb) ;;
     gm <- outcome (GeminiExchange_fetch RateLimiter.init now_gm parsed_gm) ;;
     let (bids, asks) := aggregate cb gm in
     let buyCost := snd (executeBuy asks q) in
     let sellRevenue := snd (executeSell bids q) in
     Ok [ToBuy q buyCost; ToSell q sellRevenue])
  with
  | Ok printed => Exit 0 printed
  | Throw e => Terminated e
  end.

End QuoteSources.

(** *** An instance of [std::stod]

    [stod_decimal] reads what [std::stod] reads from a decimal numeral:
    leading white space, a sign, digits with an optional fraction, an
    optional exponent; the rest of the string is ignored, and a string that
    starts with no digit throws [invalid_argument].  The hexadecimal,
    infinity and NaN spellings and [out_of_range] have no counterpart in
    exact arithmetic.  The statements about [fetch] and [main] hold for
    every [stod]; this instance is where they are run. *)
Definition is_space (c : ascii) : bool :=
  let n := nat_of_ascii c in
  Nat.eqb n 32 || (Nat.leb 9 n && Nat.leb n 13).

Definition digit_of (c : ascii) : option Z :=
  let n := Z.of_nat (nat_of_ascii c) in
  if ((48 <=? n) && (n <=? 57))%Z then Some (n - 48)%Z else None.

Fixpoint skip_spaces (s : string) : string :=
  match s with
  | String c r => if is_space c then skip_spaces r else s
  | EmptyString => s
  end.

(** The digits [s] starts with: their value after [acc], how many there
    are, and the rest of [s]. *)
Fixpoint read_digits (s : string) (acc : Z) (count : nat) : Z * nat * string :=
  match s with
  | String c r =>
      match digit_of c with
      | Some d => read_digits r (acc * 10 + d)%Z (S count)
      | None => (acc, count, s)
      end
  | EmptyString => (acc, count, s)
  end.

Definition read_sign (s : string) : bool * string :=
  match s with
  | String "-" r => (true, r)
  | String "+" r => (false, r)
  | _ => (false, s)
  end.

Definition read_exponent (s : string) : Z :=
  match s with
  | String c r =>
      if (Ascii.eqb c "e" || Ascii.eqb c "E")%bool then
        let (neg, r') := read_sign r in
        let '(e, n, _) := read_digits r' 0 0 in
        if Nat.eqb n 0 then 0%Z else if neg then (- e)%Z else e
      else 0%Z
  | EmptyString => 0%Z
  end.

Definition stod_decimal (s : string) : result Q :=
  let (neg, s1) := read_sign (skip_spaces s) in
  let '(ip, ni, s2) := read_digits s1 0 0 in
  let '(m, nf, s3) :=
    match s2 with
    | String "." r => read_digits r ip 0
    | _ => (ip, 0%nat, s2)
    end in
  if Nat.eqb (ni + nf) 0 then Throw invalid_argument
  else
    let e := (read_exponent s3 - Z.of_nat nf)%Z in
    let x := inject_Z m * Qpower 10 e in
    Ok (Qred (if neg then - x else x)).

(** Sample books and sample documents of the two exchanges. *)
Definition book_A : OrderBook Q := mkOrderBook bids_example_Q asks_example_Q.
Definition book_B : OrderBook Q :=
  mkOrderBook [mkOrder 100 2; mkOrder 95 1] [mkOrder 50000 1; mkOrder 50020 3].

Definition coinbase_sample : json :=
  Jobject [("bids"%string, Jarray [Jarray [Jstring "100"; Jstring "1"; Jnumber 3];
                                   Jarray [Jstring "90"; Jstring "5"; Jnumber 1]]);
           ("asks"%string, Jarray [Jarray [Jstring "50000"; Jstring "0.5"; Jnumber 2]]);
           ("sequence"%string, Jnumber 7)].

Definition gemini_sample : json :=
  Jobject [("bids"%string, Jarray [Jobject [("price"%string, Jstring "95");
                                            ("amount"%string, Jstring "2");
                                            ("timestamp"%string, Jstring "1")]]);
           ("asks"%string, Jarray [Jobject [("price"%string, Jstring "50010");
                                            ("amount"%string, Jstring "2.0");
                                            ("timestamp"%string, Jstring "1")]])].

(* ================================================================= *)
(** ** [WriteCallback] *)

(** [size * nmemb] on [size_t]: the product modulo [2^64]. *)
Definition size_t_mul (a b : N) : N := ((a * b) mod 2 ^ 64)%N.

(** [static size_t WriteCallback(void* contents, size_t size, size_t nmemb,
    void* userp)]: appends the first [size * nmemb] bytes at [contents] to
    the string [userp] points to and returns [size * nmemb].  The result is
    that string afterwards and the returned count.  The buffer holds at
    least that many bytes when the transfer library calls; a shorter
    buffer, which the C++ would overrun, is read to its end here. *)
Definition WriteCallback (contents : list ascii) (size nmemb : N)
           (userp : list ascii) : list ascii * N :=
  let n := size_t_mul size nmemb in
  (userp ++ firstn (N.to_nat n) contents, n).

(** The calls of one transfer, in order: each hands over a buffer with its
    [size] and [nmemb]; the string and the returned counts, in order. *)
Fixpoint write_all (calls : list (list ascii * N * N)) (userp : list ascii)
  : list ascii * list N :=
  match calls with
  | [] => (userp, [])
  | (contents, size, nmemb) :: rest =>
      let (userp', n) := WriteCallback contents size nmemb userp in
      let (final, ns) := write_all rest userp' in
      (final, n :: ns)
  end.

(* ================================================================= *)
(** ** Successive calls of [allow()] and of [fetch()] *)

(** The answers of successive calls of [allow()] on one limiter, at the
    given clock readings, and the limiter afterwards. *)
Fixpoint allow_each (nows : list Z) (s : RateLimiter.t) : list bool * RateLimiter.t :=
  match nows with
  | [] => ([], s)
  | now :: rest =>
      let (ok, s') := RateLimiter.allow now s in
      let (oks, s'') := allow_each rest s' in
      (ok :: oks, s'')
  end.

(** The readings at which those calls returned [true]. *)
Fixpoint grants (nows : list Z) (s : RateLimiter.t) : list Z :=
  match nows with
  | [] => []
  | now :: rest =>
      if fst (RateLimiter.allow now s)
      then now :: grants rest (snd (RateLimiter.allow now s))
      else grants rest (snd (RateLimiter.allow now s))
  end.

(** A reading that fits [long long] and is not negative. *)
Definition in_range (x : Z) : Prop := (0 <= x < 2 ^ 63)%Z.

(** Walking [l] never costs more than walking [l'], from any non-negative
    quantity and any cost so far, and leaves the same quantity. *)
Definition no_dearer (l l' : list (Order Q)) : Prop :=
  forall q c, 0 <= q ->
    fst (walk l q c) == fst (walk l' q c) /\
    snd (walk l q c) <= snd (walk l' q c).

(* ================================================================= *)
(** ** Binary64 runs that do not round *)

(** The rational number a binary64 number is; none for the infinities and
    NaN. *)
Definition float_val (f : float) : option Q :=
  match FloatOps.Prim2SF f with
  | SpecFloat.S754_zero _ => Some 0
  | SpecFloat.S754_finite s m e =>
      Some (Qred (inject_Z (if s then Z.neg m else Z.pos m) * Qpower 2 e))
  | _ => None
  end.

Definition finite (f : float) : bool :=
  match float_val f with
  | Some _ => true
  | None => false
  end.

Definition valQ (f : float) : Q :=
  match float_val f with
  | Some x => x
  | None => 0
  end.

(** A level and a pool of the program, read as rationals. *)
Definition Qorder (o : Order float) : Order Q :=
  mkOrder (valQ (price o)) (valQ (qty o)).

Definition Qpool (l : list (Order float)) : list (Order Q) := map Qorder l.

(** [f a b], computed on binary64, is finite and is the exact [g] of the
    values of [a] and [b]: the operation did not round. *)
Definition exact2 (f : float -> float -> float) (g : Q -> Q -> Q)
           (a b : float) : bool :=
  finite a && finite b && finite (f a b)
  && Qeq_bool (valQ (f a b)) (g (valQ a) (valQ b)).

(** The binary64 comparisons [a < b] and [a <= b] of two finite numbers
    say what the comparison of their values says. *)
Definition exact_lt (a b : float) : bool :=
  finite a && finite b
  && Bool.eqb (PrimFloat.ltb a b) (negb (Qle_bool (valQ b) (valQ a))).

Definition exact_le (a b : float) : bool :=
  finite a && finite b
  && Bool.eqb (PrimFloat.leb a b) (Qle_bool (valQ a) (valQ b)).

(** No operation of the loop rounds, on the levels it visits from the
    locals [remaining] and [cost]: the test follows [walk] turn by turn. *)
Fixpoint exact_walk (levels : list (Order float)) (remaining cost : float) : bool :=
  match levels with
  | [] => true
  | o :: rest =>
      let take := std_min remaining (qty o) in
      let cost' := add cost (mul take (price o)) in
      let remaining' := sub remaining take in
      exact_lt (qty o) remaining
      && exact2 PrimFloat.mul Qmult take (price o)
      && exact2 PrimFloat.add Qplus cost (mul take (price o))
      && exact2 PrimFloat.sub Qminus remaining take
      && exact_le remaining' zero
      && (if leb remaining' zero then true else exact_walk rest remaining' cost')
  end.

(** The prices of a pool are finite, so that the sort compares them as
    their values compare. *)
Definition exact_prices (pool : list (Order float)) : bool :=
  forallb (fun a => forallb (fun b => exact_lt (price a) (price b)) pool) pool.

(** What [std::sort] guarantees of the vector it leaves: a permutation of
    the input in which no element compares before an earlier one.  The
    standard says no more; the orders of levels that tie on price are all
    allowed. *)
Definition sorted_for (comp : Order float -> Order float -> bool)
           (input s : list (Order float)) : Prop :=
  Permutation input s /\ StronglySorted (fun a b => comp b a = false) s.

(** The loop of [executeBuy] and [executeSell], run from quantity [q] over
    the sorted vector [s], does not round. *)
Definition exact_run (s : list (Order float)) (q : float) : bool :=
  finite q && exact_walk s q zero.

(** No two different levels of the pool have the same price. *)
Definition no_ties (pool : list (Order float)) : Prop :=
  forall a b, In a pool -> In b pool ->
    a = b \/ ~ valQ (price a) == valQ (price b).



Definition tie_book_A : OrderBook float :=
  mkOrderBook [mkOrder 0x1.999999999999ap-4%float 0x1.999999999999ap-3%float]
              [mkOrder 0x1.999999999999ap-4%float 0x1.999999999999ap-3%float].

Definition tie_book_B : OrderBook float :=
  mkOrderBook [mkOrder 0x1.999999999999ap-4%float 0x1.199999999999ap+0%float]
              [mkOrder 0x1.999999999999ap-4%float 0x1.199999999999ap+0%float].

(** Binary64 books: the quoted one, one with other prices, one that ties
    with the quoted one. *)
Definition book_A64 : OrderBook float :=
  mkOrderBook bids_example_binary64 asks_example_binary64.

Definition book_B64 : OrderBook float :=
  mkOrderBook [mkOrder 95%float 2%float] [mkOrder 50020%float 3%float].

Definition book_C64 : OrderBook float :=
  mkOrderBook [mkOrder 100%float 2%float] [mkOrder 50000%float 1%float].

(** Case analysis on the comparisons of the exact instance. *)
Ltac compare_cases :=
  repeat match goal with
    | |- context [Qle_bool ?a ?b] =>
        let E := fresh "E" in
        destruct (Qle_bool a b) eqn:E;
        [ apply Qle_bool_iff in E
        | apply not_true_iff_false in E; rewrite Qle_bool_iff in E;
          apply Qnot_le_lt in E ]
    end.

Ltac unfold_ops :=
  cbn [walk spec_walk std_min zero add sub mul ltb leb Q_ops negb fst snd
       price_less price_greater] in *.

(** One turn of the loop, split by the outcome of its comparisons. *)
Ltac walk_step :=
  cbn [walk spec_walk]; unfold std_min; unfold_ops; compare_cases;
  cbn [negb fst snd] in *.

(* ================================================================= *)
(** * Properties *)

(** ** The comparisons of the exact instance *)

Lemma ltb_Q_true (a b : Q) : ltb a b = true <-> a < b.
Proof.
  cbn. rewrite negb_true_iff. split; intro E.
  - apply Qnot_le_lt. rewrite <- Qle_bool_iff. congruence.
  - apply not_true_iff_false. rewrite Qle_bool_iff. lra.
Qed.

Lemma ltb_Q_false (a b : Q) : ltb a b = false <-> b <= a.
Proof. cbn. rewrite negb_false_iff. apply Qle_bool_iff. Qed.

(** ** The sort *)

Section SortPermutes.
Context {num : Type}.
Variable comp : Order num -> Order num -> bool.

Lemma sort_insert_perm x l : Permutation (sort_insert comp x l) (x :: l).
Proof.
  induction l as [|y l IH]; cbn; [reflexivity|].
  destruct (comp y x); [|reflexivity].
  rewrite IH. apply perm_swap.
Qed.

Lemma std_sort_perm l : Permutation (std_sort comp l) l.
Proof.
  induction l as [|x l IH]; cbn; [reflexivity|].
  rewrite sort_insert_perm. now constructor.
Qed.
End SortPermutes.

Section SortOrders.
Variable comp : Order Q -> Order Q -> bool.
Variable R : Order Q -> Order Q -> Prop.
Hypothesis R_trans : forall a b c, R a b -> R b c -> R a c.
Hypothesis comp_true : forall a b, comp a b = true -> R a b.
Hypothesis comp_false : forall a b, comp a b = false -> R b a.

Lemma sort_insert_sorted x l :
  StronglySorted R l -> StronglySorted R (sort_insert comp x l).
Proof.
  induction 1 as [|y l Hs IH Hy]; cbn.
  - repeat constructor.
  - destruct (comp y x) eqn:E.
    + constructor; [exact IH|].
      rewrite Forall_forall in *. intros z Hz.
      apply (Permutation_in _ (sort_insert_perm comp x l)) in Hz.
      destruct Hz as [<-|Hz]; auto.
    + constructor; [now constructor|].
      constructor; [auto|].
      rewrite Forall_forall in *. eauto.
Qed.

Lemma std_sort_sorted l : StronglySorted R (std_sort comp l).
Proof.
  induction l as [|x l IH]; cbn; [constructor|].
  now apply sort_insert_sorted.
Qed.
End SortOrders.

Lemma sort_ascending (l : list (Order Q)) :
  StronglySorted price_le (std_sort price_less l).
Proof.
  apply std_sort_sorted; unfold price_le, price_less.
  - intros a b c; lra.
  - intros a b E. apply ltb_Q_true in E. lra.
  - intros a b E. now apply ltb_Q_false in E.
Qed.

Lemma sort_descending (l : list (Order Q)) :
  StronglySorted price_ge (std_sort price_greater l).
Proof.
  apply std_sort_sorted; unfold price_ge, price_greater.
  - intros a b c; lra.
  - intros a b E. apply ltb_Q_true in E. lra.
  - intros a b E. now apply ltb_Q_false in E.
Qed.

(** ** The walk and the specification's walk *)

Section AnyArithmetic.
Context {num : Type} `{DoubleOps num}.

Lemma spec_walk_stopped (l : list (Order num)) q c :
  leb q zero = true -> spec_walk l q c = (q, c).
Proof. intro E. destruct l; cbn; [reflexivity|]. now rewrite E. Qed.

(** With a quantity that is not [<= 0] on entry, testing after each
    level (the code) and before each level (the specification) give the
    same run, whatever the arithmetic. *)
Lemma walk_spec_walk (l : list (Order num)) :
  forall q c, leb q zero = false -> walk l q c = spec_walk l q c.
Proof.
  induction l as [|o l IH]; intros q c E; cbn; [reflexivity|].
  rewrite E.
  destruct (leb (sub q (std_min q (qty o))) zero) eqn:E'.
  - now rewrite spec_walk_stopped.
  - now apply IH.
Qed.
End AnyArithmetic.

(** ** The walk in exact arithmetic *)

Lemma walk_Qeq (l : list (Order Q)) :
  forall q1 q2 c1 c2, q1 == q2 -> c1 == c2 ->
    fst (walk l q1 c1) == fst (walk l q2 c2) /\
    snd (walk l q1 c1) == snd (walk l q2 c2).
Proof.
  induction l as [|o l IH]; intros q1 q2 c1 c2 Hq Hc.
  - cbn. split; assumption.
  - walk_step; try lra; try (split; nra); try (apply IH; nra).
Qed.

Lemma total_qty_nonneg (l : list (Order Q)) :
  Forall nonneg_qty l -> 0 <= total_qty l.
Proof.
  induction 1 as [|o l Ho _ IH]; cbn; [lra|]. unfold nonneg_qty in Ho. lra.
Qed.

Lemma total_value_zero (l : list (Order Q)) :
  Forall nonneg_qty l -> total_qty l == 0 -> total_value l == 0.
Proof.
  induction 1 as [|o l Ho Hl IH]; cbn; intro E; [lra|].
  unfold nonneg_qty in Ho. pose proof (total_qty_nonneg Hl) as Hn.
  assert (Eo : qty o == 0) by lra. assert (El : total_qty l == 0) by lra.
  specialize (IH El). nra.
Qed.

Lemma total_qty_perm (l l' : list (Order Q)) :
  Permutation l l' -> total_qty l == total_qty l'.
Proof. induction 1; cbn; lra. Qed.

Lemma total_value_perm (l l' : list (Order Q)) :
  Permutation l l' -> total_value l == total_value l'.
Proof. induction 1; cbn; lra. Qed.

Lemma walk_cost_ge (l : list (Order Q)) :
  Forall nonneg_price l -> Forall nonneg_qty l ->
  forall q c, 0 <= q -> c <= snd (walk l q c).
Proof.
  induction l as [|o l IH]; intros Hp Hq q c H0; [cbn; lra|].
  inversion_clear Hp as [|? ? Po Pl]. inversion_clear Hq as [|? ? Qo Ql].
  unfold nonneg_price in Po. unfold nonneg_qty in Qo.
  specialize (IH Pl Ql).
  walk_step; try nra.
  all: match goal with
       | |- _ <= snd (walk _ ?q' ?c') => specialize (IH q' c'); nra
       end.
Qed.

Lemma walk_mono (l : list (Order Q)) :
  Forall nonneg_price l -> Forall nonneg_qty l ->
  forall q1 q2 c1 c2, 0 <= q1 -> q1 <= q2 -> c1 <= c2 ->
    snd (walk l q1 c1) <= snd (walk l q2 c2).
Proof.
  induction l as [|o l IH]; intros Hp Hq q1 q2 c1 c2 H0 H12 Hc; [cbn; lra|].
  inversion_clear Hp as [|? ? Po Pl]. inversion_clear Hq as [|? ? Qo Ql].
  unfold nonneg_price in Po. unfold nonneg_qty in Qo.
  pose proof (walk_cost_ge Pl Ql) as G.
  specialize (IH Pl Ql).
  walk_step; try nra.
  all: try (apply IH; nra).
  all: match goal with
       | |- _ <= snd (walk _ ?q' ?c') => specialize (G q' c'); nra
       end.
Qed.

Lemma walk_consumed (l : list (Order Q)) :
  Forall nonneg_qty l ->
  forall q c, q - fst (walk l q c) <= total_qty l.
Proof.
  induction 1 as [|o l Qo Ql IH]; intros q c; [cbn; lra|].
  unfold nonneg_qty in Qo. pose proof (total_qty_nonneg Ql).
  cbn [total_qty]. walk_step; try lra.
  all: match goal with
       | |- context [walk _ ?q' ?c'] => specialize (IH q' c'); lra
       end.
Qed.

Lemma walk_exhaust (l : list (Order Q)) :
  Forall nonneg_qty l ->
  forall q c, total_qty l <= q ->
    snd (walk l q c) == c + total_value l /\
    (total_qty l < q -> fst (walk l q c) == q - total_qty l).
Proof.
  induction 1 as [|o l Qo Ql IH]; intros q c Hq; [cbn; split; lra|].
  unfold nonneg_qty in Qo. pose proof (total_qty_nonneg Ql).
  cbn [total_qty total_value] in *.
  walk_step.
  all: try match goal with
       | |- context [walk _ ?q' ?c'] =>
           destruct (IH q' c') as [S1 F1]; [lra|];
           split; [lra | intros; rewrite F1; lra]
       end.
  all: try lra.
  assert (Z0 : total_qty l == 0) by lra.
  assert (Z1 : q == qty o) by lra.
  pose proof (total_value_zero Ql Z0). split; [nra | intros; lra].
Qed.

Lemma tie_equiv_refl (l : list (Order Q)) : tie_equiv l l.
Proof. induction l; now constructor. Qed.

Lemma tie_equiv_perm (l l' : list (Order Q)) :
  tie_equiv l l' -> Permutation l l'.
Proof.
  induction 1; [constructor | now constructor | apply perm_swap |].
  eapply Permutation_trans; eassumption.
Qed.

Lemma tie_equiv_walk (l l' : list (Order Q)) :
  tie_equiv l l' -> Forall nonneg_qty l ->
  forall q c,
    fst (walk l q c) == fst (walk l' q c) /\
    snd (walk l q c) == snd (walk l' q c).
Proof.
  induction 1 as [|x l l' T IH|x y l P|l1 l2 l3 T1 IH1 T2 IH2]; intros F q c.
  - cbn. split; reflexivity.
  - inversion_clear F as [|? ? Fx Fl]. specialize (IH Fl).
    walk_step; try (split; reflexivity); apply IH.
  - inversion_clear F as [|? ? Fx F']. inversion_clear F' as [|? ? Fy Fl].
    unfold nonneg_qty in Fx, Fy.
    walk_step; try lra; try (split; nra); try (apply walk_Qeq; nra).
  - pose proof (Permutation_Forall (tie_equiv_perm T1) F) as F2.
    destruct (IH1 F q c) as [A1 B1]. destruct (IH2 F2 q c) as [A2 B2].
    split; [rewrite A1; exact A2 | rewrite B1; exact B2].
Qed.

Section SortedTies.
Variable R : Order Q -> Order Q -> Prop.
Hypothesis R_antisym : forall a b, R a b -> R b a -> price a == price b.

Lemma StronglySorted_remove (m n : list (Order Q)) a :
  StronglySorted R (m ++ a :: n) -> StronglySorted R (m ++ n).
Proof.
  induction m as [|x m IH]; cbn; intro S.
  - now inversion S.
  - inversion_clear S as [|? ? S' Fx]. constructor; [auto|].
    rewrite Forall_forall in *. intros z Hz. apply Fx.
    apply in_app_or in Hz. apply in_or_app. cbn. tauto.
Qed.

Lemma StronglySorted_before (m n : list (Order Q)) a x :
  StronglySorted R (m ++ a :: n) -> In x m -> R x a.
Proof.
  induction m as [|y m IH]; cbn; intros S Hx; [contradiction|].
  inversion_clear S as [|? ? S' Fy]. destruct Hx as [->|Hx]; [|auto].
  rewrite Forall_forall in Fy. apply Fy. apply in_or_app. cbn. tauto.
Qed.

Lemma tie_bubble (m n : list (Order Q)) a :
  (forall x, In x m -> price a == price x) ->
  tie_equiv (a :: m ++ n) (m ++ a :: n).
Proof.
  induction m as [|x m IH]; cbn; intro E.
  - apply tie_equiv_refl.
  - eapply tie_trans; [apply tie_swap; auto|].
    apply tie_skip. auto.
Qed.

Lemma sorted_tie_equiv (l1 : list (Order Q)) :
  forall l2, Permutation l1 l2 ->
    StronglySorted R l1 -> StronglySorted R l2 -> tie_equiv l1 l2.
Proof.
  induction l1 as [|a l1 IH]; intros l2 P S1 S2.
  - apply Permutation_nil in P. subst. constructor.
  - assert (Ha : In a l2) by (eapply Permutation_in; [exact P | now left]).
    apply in_split in Ha. destruct Ha as (m & n & ->).
    pose proof (Permutation_cons_app_inv _ _ P) as P'.
    inversion_clear S1 as [|? ? S1' Fa].
    eapply tie_trans.
    + apply tie_skip. apply (IH (m ++ n) P' S1').
      eapply StronglySorted_remove; eassumption.
    + apply tie_bubble. intros x Hx. apply R_antisym.
      * rewrite Forall_forall in Fa. apply Fa.
        eapply Permutation_in; [symmetry; exact P'|].
        apply in_or_app. now left.
      * eapply StronglySorted_before; eassumption.
Qed.
End SortedTies.

(** Any two sorted arrangements of a pool cost the same: the order in which
    [std::sort] leaves levels of equal price is immaterial. *)
Lemma sorted_walk_unique (l1 l2 : list (Order Q)) (q : Q) :
  Forall nonneg_qty l1 -> Permutation l1 l2 ->
  (StronglySorted price_le l1 /\ StronglySorted price_le l2) \/
  (StronglySorted price_ge l1 /\ StronglySorted price_ge l2) ->
  snd (walk l1 q 0) == snd (walk l2 q 0).
Proof.
  intros F P [[S1 S2]|[S1 S2]].
  - apply tie_equiv_walk; [|exact F].
    apply sorted_tie_equiv with (R := price_le); auto.
    unfold price_le. intros; lra.
  - apply tie_equiv_walk; [|exact F].
    apply sorted_tie_equiv with (R := price_ge); auto.
    unfold price_ge. intros; lra.
Qed.

(** ** Selling is buying at negated prices *)

Lemma Qle_bool_opp (a b : Q) : Qle_bool (- a) (- b) = Qle_bool b a.
Proof.
  apply eq_true_iff_eq. rewrite !Qle_bool_iff. split; intro; lra.
Qed.

Lemma sort_insert_negate (x : Order Q) (s : list (Order Q)) :
  sort_insert price_less (negate_price x) (map negate_price s) =
  map negate_price (sort_insert price_greater x s).
Proof.
  induction s as [|y s IHs]; cbn [map sort_insert]; [reflexivity|].
  unfold price_less at 1, price_greater at 1.
  cbn [ltb Q_ops negate_price price].
  rewrite Qle_bool_opp.
  destruct (Qle_bool (price y) (price x)); cbn [negb map]; [reflexivity|].
  now rewrite IHs.
Qed.

Lemma sort_negate (l : list (Order Q)) :
  std_sort price_less (map negate_price l) =
  map negate_price (std_sort price_greater l).
Proof.
  induction l as [|x l IH]; cbn [map std_sort]; [reflexivity|].
  rewrite IH. apply sort_insert_negate.
Qed.

Lemma walk_negate (l : list (Order Q)) :
  forall q c c', c == - c' ->
    fst (walk (map negate_price l) q c) == fst (walk l q c') /\
    snd (walk (map negate_price l) q c) == - snd (walk l q c').
Proof.
  induction l as [|o l IH]; intros q c c' E; cbn [map].
  - cbn. split; [reflexivity | exact E].
  - cbn [walk]. cbn [negate_price price qty].
    walk_step; try (split; lra); apply IH; lra.
Qed.

(** ** The contract of the matcher *)

(** C1. For every sequence of asks and every positive quantity,
    [executeBuy] leaves the asks sorted ascending by price (a permutation
    of the input) and returns the cost of the walk the specification
    describes over the sorted levels: take [min(remaining, level.quantity)],
    add [take * level.price], decrement, stop once [remaining <= 0] or the
    levels are exhausted; the two walks agree in binary64 too, for every
    quantity that is not [<= 0].  For asks [(50000, 0.5), (50010, 2.0)] and
    quantity 1 the cost is 50005, in exact arithmetic and in binary64. *)
Theorem executeBuy_greedy (asks : list (Order Q)) (q : Q) (Hq : 0 < q) :
  Permutation (fst (executeBuy asks q)) asks /\
  StronglySorted price_le (fst (executeBuy asks q)) /\
  snd (executeBuy asks q) = snd (spec_walk (fst (executeBuy asks q)) q 0) /\
  (forall (asks64 : list (Order float)) (q64 : float),
     PrimFloat.leb q64 0%float = false ->
     snd (executeBuy asks64 q64)
     = snd (spec_walk (fst (executeBuy asks64 q64)) q64 0%float)) /\
  snd (executeBuy asks_example_Q 1) == 50005 /\
  snd (executeBuy asks_example_binary64 1%float) = 50005%float.
Proof.
  unfold executeBuy, executeBuy_locals. cbn [fst snd].
  split; [apply std_sort_perm|]. split; [apply sort_ascending|].
  split; [|split; [|split; vm_compute; reflexivity]].
  - rewrite walk_spec_walk; [reflexivity|].
    cbn. apply not_true_iff_false. rewrite Qle_bool_iff. lra.
  - intros asks64 q64 E. now rewrite walk_spec_walk.
Qed.

Lemma executeBuy_greedy_witness :
  0 < 1 /\
  Permutation (fst (executeBuy asks_example_Q 1)) asks_example_Q /\
  StronglySorted price_le (fst (executeBuy asks_example_Q 1)) /\
  snd (executeBuy asks_example_Q 1)
  = snd (spec_walk (fst (executeBuy asks_example_Q 1)) 1 0) /\
  snd (executeBuy asks_example_Q 1) == 50005.
Proof.
  split; [reflexivity|].
  pose proof (@executeBuy_greedy asks_example_Q 1 eq_refl) as W.
  exact (conj (proj1 W) (conj (proj1 (proj2 W))
          (conj (proj1 (proj2 (proj2 W)))
                (proj1 (proj2 (proj2 (proj2 (proj2 W)))))))).
Defined.

(** C2. [executeSell] is [executeBuy] with the order of the sort reversed:
    for every sequence of bids and every positive quantity it leaves the
    bids sorted descending by price (a permutation of the input) and
    returns the revenue of the same walk over them; it is the mirror image
    of a buy at the negated prices; the two walks agree in binary64 too.
    For bids [(100, 1), (90, 5)] and quantity 1 the revenue is 100, in
    exact arithmetic and in binary64. *)
Theorem executeSell_greedy (bids : list (Order Q)) (q : Q) (Hq : 0 < q) :
  Permutation (fst (executeSell bids q)) bids /\
  StronglySorted price_ge (fst (executeSell bids q)) /\
  snd (executeSell bids q) = snd (spec_walk (fst (executeSell bids q)) q 0) /\
  snd (executeSell bids q) == - snd (executeBuy (map negate_price bids) q) /\
  (forall (bids64 : list (Order float)) (q64 : float),
     PrimFloat.leb q64 0%float = false ->
     snd (executeSell bids64 q64)
     = snd (spec_walk (fst (executeSell bids64 q64)) q64 0%float)) /\
  snd (executeSell bids_example_Q 1) == 100 /\
  snd (executeSell bids_example_binary64 1%float) = 100%float.
Proof.
  unfold executeSell, executeSell_locals. cbn [fst snd].
  split; [apply std_sort_perm|]. split; [apply sort_descending|].
  split; [|split; [|split; [|split; vm_compute; reflexivity]]].
  - rewrite walk_spec_walk; [reflexivity|].
    cbn. apply not_true_iff_false. rewrite Qle_bool_iff. lra.
  - unfold executeBuy, executeBuy_locals. cbn [snd zero Q_ops].
    rewrite sort_negate.
    destruct (walk_negate (std_sort price_greater bids) q (c := 0) (c' := 0)) as [_ E];
      [lra|].
    rewrite E. lra.
  - intros bids64 q64 E. now rewrite walk_spec_walk.
Qed.

Lemma executeSell_greedy_witness :
  0 < 1 /\
  Permutation (fst (executeSell bids_example_Q 1)) bids_example_Q /\
  StronglySorted price_ge (fst (executeSell bids_example_Q 1)) /\
  snd (executeSell bids_example_Q 1)
  = snd (spec_walk (fst (executeSell bids_example_Q 1)) 1 0) /\
  snd (executeSell bids_example_Q 1)
  == - snd (executeBuy (map negate_price bids_example_Q) 1) /\
  snd (executeSell bids_example_Q 1) == 100.
Proof.
  split; [reflexivity|].
  pose proof (@executeSell_greedy bids_example_Q 1 eq_refl) as W.
  exact (conj (proj1 W) (conj (proj1 (proj2 W))
          (conj (proj1 (proj2 (proj2 W)))
                (conj (proj1 (proj2 (proj2 (proj2 W))))
                      (proj1 (proj2 (proj2 (proj2 (proj2 (proj2 W)))))))))).
Defined.

Lemma asks_example_nonneg :
  Forall nonneg_price asks_example_Q /\ Forall nonneg_qty asks_example_Q.
Proof. split; repeat constructor; unfold nonneg_price, nonneg_qty; cbn; lra. Qed.


(** C4. For a fixed set of asks with non-negative prices and quantities
    (the data model's levels) and quantities [0 <= q1 <= q2], the cost of
    buying [q1] is at most the cost of buying [q2]. *)
Theorem executeBuy_monotone (asks : list (Order Q)) (q1 q2 : Q)
  (Fp : Forall nonneg_price asks) (Fq : Forall nonneg_qty asks)
  (H1 : 0 <= q1) (H12 : q1 <= q2) :
  snd (executeBuy asks q1) <= snd (executeBuy asks q2).
Proof.
  unfold executeBuy, executeBuy_locals. cbn [snd].
  pose proof (std_sort_perm price_less asks) as P. symmetry in P.
  apply walk_mono; try assumption; try (cbn; lra).
  - exact (Permutation_Forall P Fp).
  - exact (Permutation_Forall P Fq).
Qed.

Lemma executeBuy_monotone_witness :
  Forall nonneg_price asks_example_Q /\ Forall nonneg_qty asks_example_Q /\
  0 <= 1 /\ 1 <= 2 /\
  snd (executeBuy asks_example_Q 1) <= snd (executeBuy asks_example_Q 2).
Proof.
  split; [exact (proj1 asks_example_nonneg)|].
  split; [exact (proj2 asks_example_nonneg)|].
  split; [discriminate|]. split; [discriminate|].
  apply (@executeBuy_monotone asks_example_Q 1 2
           (proj1 asks_example_nonneg) (proj2 asks_example_nonneg));
    discriminate.
Defined.

Lemma walk_nonpositive (l : list (Order Q)) (q : Q) :
  Forall nonneg_qty l -> q <= 0 -> snd (walk l q 0) == q * first_price l.
Proof.
  intros F Hq. destruct F as [|o l Fo Fl]; [cbn; lra|].
  unfold nonneg_qty in Fo. cbn [first_price]. walk_step; lra.
Qed.

(** C5, as the specification states it, fails for a negative quantity:
    the loop tests [qty <= 0] only after its first turn, which takes
    [min(qty, o.qty) = qty] and adds [qty * o.price].  On the single level
    (100, 1) with [qty = -1] both functions return -100. *)
Lemma execute_negative_qty_counterexample :
  snd (executeBuy [mkOrder 100 1] (-1)) == -100 /\
  snd (executeSell [mkOrder 100 1] (-1)) == -100 /\
  ~ snd (executeBuy [mkOrder 100 1] (-1)) == 0 /\
  ~ snd (executeSell [mkOrder 100 1] (-1)) == 0 /\
  snd (executeBuy [mkOrder 100%float 1%float] (-1)%float) = (-100)%float /\
  snd (executeSell [mkOrder 100%float 1%float] (-1)%float) = (-100)%float.
Proof. repeat split; vm_compute; congruence. Qed.

(** C5, amended. On levels of non-negative quantity, [executeBuy] and
    [executeSell] called with a quantity [q <= 0] return [q] times the
    price of the first level of the sorted pool (the lowest ask, the
    highest bid): 0 when [q] is 0, and 0 on an empty pool whatever the
    quantity. *)
Theorem execute_nonpositive_qty (levels : list (Order Q)) (q : Q)
  (F : Forall nonneg_qty levels) (Hq : q <= 0) :
  snd (executeBuy levels q) == q * first_price (fst (executeBuy levels q)) /\
  snd (executeSell levels q) == q * first_price (fst (executeSell levels q)) /\
  (q == 0 -> snd (executeBuy levels q) == 0 /\ snd (executeSell levels q) == 0) /\
  (forall q' : Q, snd (executeBuy [] q') = 0 /\ snd (executeSell [] q') = 0).
Proof.
  assert (B : snd (executeBuy levels q) == q * first_price (fst (executeBuy levels q))).
  { unfold executeBuy, executeBuy_locals. cbn [fst snd].
    apply walk_nonpositive; [|exact Hq].
    eapply Permutation_Forall; [symmetry; apply std_sort_perm | exact F]. }
  assert (S : snd (executeSell levels q) == q * first_price (fst (executeSell levels q))).
  { unfold executeSell, executeSell_locals. cbn [fst snd].
    apply walk_nonpositive; [|exact Hq].
    eapply Permutation_Forall; [symmetry; apply std_sort_perm | exact F]. }
  split; [exact B|]. split; [exact S|]. split.
  - intro E. rewrite B, S. split; nra.
  - intro q'. split; reflexivity.
Qed.

Lemma execute_nonpositive_qty_witness :
  Forall nonneg_qty asks_example_Q /\ 0 <= 0 /\
  snd (executeBuy asks_example_Q 0) == 0 /\
  snd (executeSell asks_example_Q 0) == 0.
Proof.
  split; [exact (proj2 asks_example_nonneg)|]. split; [discriminate|].
  apply (proj1 (proj2 (proj2 (@execute_nonpositive_qty asks_example_Q 0
           (proj2 asks_example_nonneg) (Qle_refl 0))))).
  reflexivity.
Defined.

(** Permuting the pool does not change the cost or the revenue. *)
Lemma execute_perm (l1 l2 : list (Order Q)) (q : Q) :
  Forall nonneg_qty l1 -> Permutation l1 l2 ->
  snd (executeBuy l1 q) == snd (executeBuy l2 q) /\
  snd (executeSell l1 q) == snd (executeSell l2 q).
Proof.
  intros F P.
  unfold executeBuy, executeBuy_locals, executeSell, executeSell_locals.
  cbn [snd zero Q_ops].
  assert (P' : forall comp, Permutation (std_sort comp l1) (std_sort comp l2)).
  { intro comp. rewrite !std_sort_perm. exact P. }
  assert (F' : forall comp, Forall nonneg_qty (std_sort comp l1)).
  { intro comp. eapply Permutation_Forall; [symmetry; apply std_sort_perm | exact F]. }
  split; apply sorted_walk_unique; auto.
  - left. split; apply sort_ascending.
  - right. split; apply sort_descending.
Qed.

Lemma books_nonneg : nonneg_book book_A /\ nonneg_book book_B.
Proof.
  unfold nonneg_book; repeat split; repeat constructor;
    unfold nonneg_qty; cbn; lra.
Qed.

(** In exact arithmetic: every order is in a pool as often as the two
    books together hold it, and the pools
    of [A] then [B] and of [B] then [A] are permutations of each other.
    For books whose levels have non-negative quantity (the data model's
    levels) and every quantity, matching the pool of [A] then [B] gives the
    same cost and the same revenue as matching the pool of [B] then [A]. *)
Lemma aggregate_order_irrelevant (A B : OrderBook Q) (q : Q)
  (NA : nonneg_book A) (NB : nonneg_book B) :
  (forall o,
     count_occ Order_eq_dec (fst (aggregate A B)) o
     = (count_occ Order_eq_dec (bids A) o + count_occ Order_eq_dec (bids B) o)%nat /\
     count_occ Order_eq_dec (snd (aggregate A B)) o
     = (count_occ Order_eq_dec (asks A) o + count_occ Order_eq_dec (asks B) o)%nat) /\
  Permutation (fst (aggregate A B)) (fst (aggregate B A)) /\
  Permutation (snd (aggregate A B)) (snd (aggregate B A)) /\
  snd (executeBuy (snd (aggregate A B)) q)
  == snd (executeBuy (snd (aggregate B A)) q) /\
  snd (executeSell (fst (aggregate A B)) q)
  == snd (executeSell (fst (aggregate B A)) q).
Proof.
  destruct NA as [NAb NAa], NB as [NBb NBa].
  unfold aggregate. cbn [fst snd].
  split; [intro o; split; apply count_occ_app|].
  split; [apply Permutation_app_comm|]. split; [apply Permutation_app_comm|].
  split.
  - apply execute_perm; [|apply Permutation_app_comm].
    apply Forall_app; now split.
  - apply execute_perm; [|apply Permutation_app_comm].
    apply Forall_app; now split.
Qed.

(** The hypotheses of non-negative price and quantity are the data model's
    and cannot be dropped, in exact arithmetic already: a level of
    negative price makes the cost decrease with the
    quantity, and a level of negative quantity makes the walk stop before
    the pool is exhausted and makes ties matter. *)
Example outside_the_data_model :
  snd (executeBuy [mkOrder (-1) 1] 1) < snd (executeBuy [mkOrder (-1) 1] 0) /\
  total_qty [mkOrder 1 5; mkOrder 2 (-10)] < 3 /\
  ~ snd (executeBuy [mkOrder 1 5; mkOrder 2 (-10)] 3)
    == total_value [mkOrder 1 5; mkOrder 2 (-10)] /\
  ~ snd (executeBuy ([mkOrder 1 (-1)] ++ [mkOrder 1 1]) 1)
    == snd (executeBuy ([mkOrder 1 1] ++ [mkOrder 1 (-1)]) 1).
Proof. repeat split; vm_compute; congruence. Qed.

(** C10. [executeBuy] and [executeSell] change their argument only by
    reordering it: the sequence after the call is a permutation of the
    sequence before it, so every [Order] is there with the price and the
    quantity it had (the remaining quantity lives in the local [qty]).
    This holds in any arithmetic. *)
Theorem execute_only_reorders (num : Type) (ops : DoubleOps num)
  (levels : list (Order num)) (q : num) :
  Permutation (fst (executeBuy levels q)) levels /\
  Permutation (fst (executeSell levels q)) levels.
Proof. split; apply std_sort_perm. Qed.

(** ** The rate limiter *)

Module RateLimiterFacts.
Import RateLimiter.
Local Open Scope Z_scope.

Lemma difference_in_range (now last : Z) :
  0 <= last < 2 ^ 63 -> 0 <= now < 2 ^ 63 ->
  - 2 ^ 63 <= now - last < 2 ^ 63.
Proof. lia. Qed.

Lemma allow_spec (now : Z) (s : t) :
  allow now s =
  if now - lastCallNs s <? cooldown then (false, s) else (true, mk now).
Proof.
  unfold allow, compare_exchange_strong. now rewrite Z.eqb_refl.
Qed.

Lemma set_caller_same f i c : set_caller f i c i = c.
Proof. unfold set_caller. now rewrite Nat.eqb_refl. Qed.

Lemma set_caller_other f i c j : j <> i -> set_caller f i c j = f j.
Proof.
  intro N. unfold set_caller. apply Nat.eqb_neq in N. now rewrite N.
Qed.

(** [allow()] run alone is a load followed at once by the caller's
    second step. *)
Lemma allow_as_steps (s : system) (i : nat) (now : Z) :
  callers s i = NotCalled ->
  exists s1 s2,
    step s s1 /\ step s1 s2 /\
    cell s2 = lastCallNs (snd (allow now (mk (cell s)))) /\
    callers s2 i = Returned now (fst (allow now (mk (cell s)))).
Proof.
  intro N. rewrite allow_spec. cbn [lastCallNs].
  destruct (now - cell s <? cooldown) eqn:E.
  - apply Z.ltb_lt in E. eexists. eexists.
    split; [apply (step_load s i now N)|]. split.
    + eapply step_deny with (i := i); [cbn; apply set_caller_same | exact E].
    + cbn. now rewrite set_caller_same.
  - apply Z.ltb_ge in E. eexists. eexists.
    split; [apply (step_load s i now N)|]. split.
    + eapply step_exchange with (i := i); [cbn; apply set_caller_same | exact E].
    + cbn. unfold compare_exchange_strong.
      rewrite Z.eqb_refl, set_caller_same. now cbn.
Qed.

(** A step in which a caller obtains [true] found the cell at the value
    that caller had loaded, at least a cooldown before its [now], and
    leaves [now] in the cell. *)
Lemma step_grant (s s' : system) (i : nat) (now : Z) :
  step s s' -> granted s' i now -> ~ granted s i now ->
  cell s' = now /\ cooldown <= now - cell s.
Proof.
  unfold granted.
  intros St G N. destruct St as [s k n L|s k n last L D|s k n last L C];
    cbn [callers cell] in *.
  - destruct (Nat.eq_dec i k) as [->|Nk].
    + rewrite set_caller_same in G. discriminate.
    + rewrite set_caller_other in G by assumption. contradiction.
  - destruct (Nat.eq_dec i k) as [->|Nk].
    + rewrite set_caller_same in G. discriminate.
    + rewrite set_caller_other in G by assumption. contradiction.
  - destruct (Nat.eq_dec i k) as [->|Nk].
    + rewrite set_caller_same in G. unfold compare_exchange_strong in *.
      destruct (cell s =? last) eqn:E; cbn in *; [|discriminate].
      apply Z.eqb_eq in E. inversion G; subst. split; [reflexivity | exact C].
    + rewrite set_caller_other in G by assumption. contradiction.
Qed.

(** A step in which no caller obtains [true] leaves the cell as it
    was. *)
Lemma step_refused_keeps_cell (s s' : system) :
  step s s' ->
  (forall i now, granted s' i now -> granted s i now) ->
  cell s' = cell s.
Proof.
  unfold granted.
  intros St K. destruct St as [s k n L|s k n last L D|s k n last L C];
    cbn [callers cell] in *; try reflexivity.
  unfold compare_exchange_strong in *.
  destruct (cell s =? last) eqn:E; cbn in *; [|reflexivity].
  specialize (K k n). rewrite set_caller_same in K.
  specialize (K eq_refl). congruence.
Qed.

Lemma granted_set_caller f i c j n :
  set_caller f i c j = Returned n true ->
  (j = i /\ c = Returned n true) \/ (j <> i /\ f j = Returned n true).
Proof.
  intro G. destruct (Nat.eq_dec j i) as [->|N].
  - rewrite set_caller_same in G. now left.
  - rewrite set_caller_other in G by assumption. now right.
Qed.

(** A step that grants nothing keeps the invariant. *)
Lemma separated_no_grant (s : system) (i : nat) (c : caller) :
  (forall n, c <> Returned n true) ->
  separated s ->
  separated (mkSystem (cell s) (set_caller (callers s) i c)).
Proof.
  unfold separated, granted. cbn [cell callers].
  intros Nc [Hc Hs]. split.
  - intros j n G. apply granted_set_caller in G.
    destruct G as [[_ G]|[_ G]]; [now apply Nc in G | eauto].
  - intros j k nj nk Njk Gj Gk.
    apply granted_set_caller in Gj, Gk.
    destruct Gj as [[_ Gj]|[_ Gj]]; [now apply Nc in Gj|].
    destruct Gk as [[_ Gk]|[_ Gk]]; [now apply Nc in Gk|].
    eauto.
Qed.

Lemma step_separated (s s' : system) :
  step s s' -> separated s -> separated s'.
Proof.
  intros St Sep. destruct St as [s k n L|s k n last L D|s k n last L C].
  - apply separated_no_grant; [discriminate | exact Sep].
  - apply separated_no_grant; [discriminate | exact Sep].
  - unfold compare_exchange_strong.
    destruct (cell s =? last) eqn:E; cbn [fst snd];
      [|apply separated_no_grant; [discriminate | exact Sep]].
    apply Z.eqb_eq in E. subst last.
    destruct Sep as [Hc Hs]. unfold separated, granted in *.
    cbn [cell callers]. unfold cooldown in *. split.
    + intros j m G. apply granted_set_caller in G.
      destruct G as [[_ G]|[_ G]]; [inversion G; lia|].
      specialize (Hc j m G). lia.
    + intros i j ni nj Nij Gi Gj.
      apply granted_set_caller in Gi, Gj.
      destruct Gi as [[-> Gi]|[Ni Gi]], Gj as [[-> Gj]|[Nj Gj]].
      * contradiction.
      * inversion Gi; subst. specialize (Hc j nj Gj). lia.
      * inversion Gj; subst. specialize (Hc i ni Gi). lia.
      * eauto.
Qed.

Lemma reachable_separated (c0 : Z) (s : system) :
  reachable c0 s -> separated s.
Proof.
  induction 1 as [|s s' _ IH St].
  - split; unfold granted; cbn; intros; discriminate.
  - eapply step_separated; eassumption.
Qed.

(** Two callers race from a fresh limiter: both load 0, the first
    exchange succeeds, the second fails. *)
Example race :
  exists s, reachable 0 s /\
    callers s 0%nat = Returned 5000000000 true /\
    callers s 1%nat = Returned 5000000001 false /\
    cell s = 5000000000.
Proof.
  eexists. split.
  - eapply reach_step.
    + eapply reach_step.
      * eapply reach_step.
        -- eapply reach_step; [apply reach_init|].
           apply step_load with (i := 0%nat) (now := 5000000000). reflexivity.
        -- apply step_load with (i := 1%nat) (now := 5000000001). reflexivity.
      * apply step_exchange with (i := 0%nat) (now := 5000000000) (last := 0);
          [reflexivity | unfold cooldown; lia].
    + apply step_exchange with (i := 1%nat) (now := 5000000001) (last := 0);
        [reflexivity | unfold cooldown; lia].
  - cbn. repeat split.
Qed.

End RateLimiterFacts.

(** C7. [allow()] returns [true] and records [now] exactly when at least
    the cooldown (2 s) has passed since the recorded time and, among
    concurrent callers, the cell still holds the time it loaded; otherwise
    it returns [false] and leaves the recorded time as it was.  So a call
    after the cooldown returns true, a second call within the window it
    opens returns false, and a third call once the window has passed
    returns true again; and in every interleaving of concurrent callers the
    readings of those that obtained [true] are pairwise at least a cooldown
    apart: at most one caller per window. *)
Theorem allow_once_per_window (s : RateLimiter.t) (t1 t2 t3 : Z)
  (H1 : (RateLimiter.cooldown <= t1 - RateLimiter.lastCallNs s)%Z)
  (H2 : (t1 <= t2 < t1 + RateLimiter.cooldown)%Z)
  (H3 : (t1 + RateLimiter.cooldown <= t3)%Z) :
  (forall now s0,
     RateLimiter.allow now s0 =
     if (now - RateLimiter.lastCallNs s0 <? RateLimiter.cooldown)%Z
     then (false, s0) else (true, RateLimiter.mk now)) /\
  RateLimiter.allow t1 s = (true, RateLimiter.mk t1) /\
  RateLimiter.allow t2 (snd (RateLimiter.allow t1 s))
  = (false, RateLimiter.mk t1) /\
  RateLimiter.allow t3 (snd (RateLimiter.allow t2 (snd (RateLimiter.allow t1 s))))
  = (true, RateLimiter.mk t3) /\
  (forall c0 sys i j ni nj,
     RateLimiter.reachable c0 sys -> i <> j ->
     RateLimiter.granted sys i ni -> RateLimiter.granted sys j nj ->
     (RateLimiter.cooldown <= Z.abs (ni - nj))%Z) /\
  (forall sys sys' i now,
     RateLimiter.step sys sys' ->
     RateLimiter.granted sys' i now -> ~ RateLimiter.granted sys i now ->
     RateLimiter.cell sys' = now /\
     (RateLimiter.cooldown <= now - RateLimiter.cell sys)%Z) /\
  (forall sys sys',
     RateLimiter.step sys sys' ->
     (forall i now, RateLimiter.granted sys' i now -> RateLimiter.granted sys i now) ->
     RateLimiter.cell sys' = RateLimiter.cell sys).
Proof.
  assert (A1 : RateLimiter.allow t1 s = (true, RateLimiter.mk t1)).
  { rewrite RateLimiterFacts.allow_spec.
    destruct (Z.ltb_spec (t1 - RateLimiter.lastCallNs s) RateLimiter.cooldown);
      [lia | reflexivity]. }
  assert (A2 : RateLimiter.allow t2 (RateLimiter.mk t1) = (false, RateLimiter.mk t1)).
  { rewrite RateLimiterFacts.allow_spec. cbn [RateLimiter.lastCallNs].
    destruct (Z.ltb_spec (t2 - t1) RateLimiter.cooldown); [reflexivity | lia]. }
  assert (A3 : RateLimiter.allow t3 (RateLimiter.mk t1) = (true, RateLimiter.mk t3)).
  { rewrite RateLimiterFacts.allow_spec. cbn [RateLimiter.lastCallNs].
    destruct (Z.ltb_spec (t3 - t1) RateLimiter.cooldown); [lia | reflexivity]. }
  split; [exact RateLimiterFacts.allow_spec|].
  split; [exact A1|]. rewrite A1. cbn [snd].
  split; [exact A2|]. rewrite A2. cbn [snd].
  split; [exact A3|].
  split; [|split].
  - intros c0 sys i j ni nj R. 
    destruct (RateLimiterFacts.reachable_separated R) as [_ S]. apply S.
  - intros sys sys' i now. apply RateLimiterFacts.step_grant.
  - intros sys sys'. apply RateLimiterFacts.step_refused_keeps_cell.
Qed.

Lemma allow_once_per_window_witness :
  (RateLimiter.cooldown <= 5000000000 - RateLimiter.lastCallNs RateLimiter.init)%Z /\
  (5000000000 <= 6000000000 < 5000000000 + RateLimiter.cooldown)%Z /\
  (5000000000 + RateLimiter.cooldown <= 7000000000)%Z /\
  RateLimiter.allow 5000000000 RateLimiter.init
  = (true, RateLimiter.mk 5000000000) /\
  RateLimiter.allow 6000000000 (snd (RateLimiter.allow 5000000000 RateLimiter.init))
  = (false, RateLimiter.mk 5000000000) /\
  RateLimiter.allow 7000000000
    (snd (RateLimiter.allow 6000000000
            (snd (RateLimiter.allow 5000000000 RateLimiter.init))))
  = (true, RateLimiter.mk 7000000000).
Proof.
  assert (H1 : (RateLimiter.cooldown
                <= 5000000000 - RateLimiter.lastCallNs RateLimiter.init)%Z)
    by (vm_compute; discriminate).
  assert (H2 : (5000000000 <= 6000000000 < 5000000000 + RateLimiter.cooldown)%Z)
    by (vm_compute; split; [discriminate | reflexivity]).
  assert (H3 : (5000000000 + RateLimiter.cooldown <= 7000000000)%Z)
    by (vm_compute; discriminate).
  split; [exact H1|]. split; [exact H2|]. split; [exact H3|].
  pose proof (@allow_once_per_window RateLimiter.init 5000000000 6000000000
                7000000000 H1 H2 H3) as W.
  exact (conj (proj1 (proj2 W))
              (conj (proj1 (proj2 (proj2 W))) (proj1 (proj2 (proj2 (proj2 W)))))).
Defined.

(** ** The quote sources and [main] *)

Example fetch_samples :
  outcome (CoinbaseExchange_fetch stod_decimal RateLimiter.init 5000000000
             (Ok coinbase_sample))
  = Ok (mkOrderBook [mkOrder 100 1; mkOrder 90 5] [mkOrder 50000 (1 # 2)]) /\
  outcome (GeminiExchange_fetch stod_decimal RateLimiter.init 5000000000
             (Ok gemini_sample))
  = Ok (mkOrderBook [mkOrder 95 2] [mkOrder 50010 2]) /\
  exists cost revenue,
    main stod_decimal ["prog"; "--qty"; "1"]%string
         5000000000 (Ok coinbase_sample) 5000000000 (Ok gemini_sample)
    = Exit 0 [ToBuy 1 cost; ToSell 1 revenue] /\
    cost == 50005 /\ revenue == 100.
Proof.
  split; [reflexivity|]. split; [reflexivity|].
  eexists. eexists. split; [vm_compute; reflexivity|]. split; reflexivity.
Qed.

(** A level whose price is a JSON number, not a string, makes [fetch]
    throw [type_error]; a level whose price is not a numeral makes it throw
    what [std::stod] throws. *)
Example fetch_bad_levels :
  outcome (CoinbaseExchange_fetch stod_decimal RateLimiter.init 5000000000
             (Ok (Jobject [("bids"%string, Jarray [Jarray [Jnumber 100; Jstring "1"]])])))
  = Throw type_error /\
  outcome (GeminiExchange_fetch stod_decimal RateLimiter.init 5000000000
             (Ok (Jobject [("asks"%string,
                            Jarray [Jobject [("price"%string, Jstring "n/a");
                                             ("amount"%string, Jstring "1")]])])))
  = Throw invalid_argument.
Proof. split; reflexivity. Qed.

Section SourcesAndMain.
Variable stod : string -> result Q.

Lemma fetch_with_denied level limiter now parsed :
  fst (RateLimiter.allow now limiter) = false ->
  fetch_with level limiter now parsed = mkRun (Ok empty_book) limiter 0.
Proof.
  unfold fetch_with. rewrite RateLimiterFacts.allow_spec.
  destruct (now - RateLimiter.lastCallNs limiter <? RateLimiter.cooldown)%Z;
    cbn; [reflexivity | discriminate].
Qed.

Lemma fetch_with_throws level limiter now e :
  fst (RateLimiter.allow now limiter) = true ->
  fetch_with level limiter now (Throw e)
  = mkRun (Throw e) (RateLimiter.mk now) 1.
Proof.
  unfold fetch_with. rewrite RateLimiterFacts.allow_spec.
  destruct (now - RateLimiter.lastCallNs limiter <? RateLimiter.cooldown)%Z;
    cbn; [discriminate | reflexivity].
Qed.
End SourcesAndMain.

(** C8, as the specification states it, fails for a transport or parse
    failure: no function has a handler, so the [parse_error] that
    [json::parse] throws on the body of a failed transfer leaves [fetch()],
    and then [main]. *)
Lemma fetch_failure_counterexample :
  CoinbaseExchange_fetch stod_decimal RateLimiter.init 5000000000 (Throw parse_error)
  = mkRun (Throw parse_error) (RateLimiter.mk 5000000000) 1 /\
  GeminiExchange_fetch stod_decimal RateLimiter.init 5000000000 (Throw parse_error)
  = mkRun (Throw parse_error) (RateLimiter.mk 5000000000) 1 /\
  main stod_decimal ["prog"%string]
       5000000000 (Throw parse_error) 5000000000 (Ok gemini_sample)
  = Terminated parse_error /\
  main stod_decimal ["prog"%string]
       5000000000 (Ok coinbase_sample) 5000000000 (Throw parse_error)
  = Terminated parse_error.
Proof. repeat split. Qed.

(** C8, amended. [fetch()] consults its rate limiter before any transfer
    and, when denied, returns an empty order book (no bids, no asks)
    without a transfer and with the limiter unchanged.  A transport or
    parse failure is not recovered: when the limiter allows the call and
    [json::parse] throws, [fetch()] throws the same exception after its one
    transfer, and [main], which has no handler either, is terminated. *)
Theorem fetch_denied_or_throws (stod : string -> result Q)
  (limiter : RateLimiter.t) (now : Z) (parsed : result json) :
  (fst (RateLimiter.allow now limiter) = false ->
     CoinbaseExchange_fetch stod limiter now parsed
     = mkRun (Ok empty_book) limiter 0 /\
     GeminiExchange_fetch stod limiter now parsed
     = mkRun (Ok empty_book) limiter 0) /\
  (fst (RateLimiter.allow now limiter) = true ->
     forall e, parsed = Throw e ->
       CoinbaseExchange_fetch stod limiter now parsed
       = mkRun (Throw e) (RateLimiter.mk now) 1 /\
       GeminiExchange_fetch stod limiter now parsed
       = mkRun (Throw e) (RateLimiter.mk now) 1) /\
  (forall argv q e now_gm parsed_gm,
     parse_qty stod argv = Ok q ->
     outcome (CoinbaseExchange_fetch stod RateLimiter.init now parsed) = Throw e ->
     main stod argv now parsed now_gm parsed_gm = Terminated e) /\
  (forall argv q cb e now_cb parsed_cb,
     parse_qty stod argv = Ok q ->
     outcome (CoinbaseExchange_fetch stod RateLimiter.init now_cb parsed_cb) = Ok cb ->
     outcome (GeminiExchange_fetch stod RateLimiter.init now parsed) = Throw e ->
     main stod argv now_cb parsed_cb now parsed = Terminated e).
Proof.
  split; [|split; [|split]].
  - intro D. split; apply fetch_with_denied; exact D.
  - intros G e ->. split; apply fetch_with_throws; exact G.
  - intros argv q e now_gm parsed_gm Pq C. unfold main.
    rewrite Pq. cbn [bind]. rewrite C. reflexivity.
  - intros argv q cb e now_cb parsed_cb Pq C G. unfold main.
    rewrite Pq. cbn [bind]. rewrite C. cbn [bind]. rewrite G. reflexivity.
Qed.

Lemma fetch_denied_or_throws_witness :
  fst (RateLimiter.allow 1000000000 RateLimiter.init) = false /\
  CoinbaseExchange_fetch stod_decimal RateLimiter.init 1000000000 (Ok coinbase_sample)
  = mkRun (Ok empty_book) RateLimiter.init 0 /\
  GeminiExchange_fetch stod_decimal RateLimiter.init 1000000000 (Ok gemini_sample)
  = mkRun (Ok empty_book) RateLimiter.init 0 /\
  fst (RateLimiter.allow 5000000000 RateLimiter.init) = true /\
  CoinbaseExchange_fetch stod_decimal RateLimiter.init 5000000000 (Throw parse_error)
  = mkRun (Throw parse_error) (RateLimiter.mk 5000000000) 1.
Proof.
  split; [reflexivity|].
  split; [exact (proj1 (proj1 (fetch_denied_or_throws stod_decimal
                   RateLimiter.init 1000000000 (Ok coinbase_sample)) eq_refl))|].
  split; [exact (proj2 (proj1 (fetch_denied_or_throws stod_decimal
                   RateLimiter.init 1000000000 (Ok gemini_sample)) eq_refl))|].
  split; [reflexivity|].
  exact (proj1 (proj1 (proj2 (fetch_denied_or_throws stod_decimal
           RateLimiter.init 5000000000 (Throw parse_error)))
           eq_refl parse_error eq_refl)).
Defined.

(** C9, as the specification states it, fails: a value of [--qty] that is
    not a number makes [std::stod] throw [invalid_argument], which leaves
    [main]; nothing is printed, no diagnostic either. *)
Lemma main_malformed_qty_counterexample :
  main stod_decimal ["prog"; "--qty"; "abc"]%string
       5000000000 (Ok coinbase_sample) 5000000000 (Ok gemini_sample)
  = Terminated invalid_argument.
Proof. reflexivity. Qed.

(** C9, amended. For every value of [--qty] on which [std::stod] throws,
    the exception leaves [main] before any source is queried: the run is
    terminated with nothing printed (no "invalid quantity" diagnostic), and
    the default quantity 10.0 is not used.  The default is used, silently,
    only when the arguments are not exactly [--qty <value>]. *)
Theorem main_malformed_qty (stod : string -> result Q)
  (prog value : string) (e : exn)
  (now_cb : Z) (parsed_cb : result json) (now_gm : Z) (parsed_gm : result json)
  (H : stod value = Throw e) :
  parse_qty stod [prog; "--qty"; value]%string = Throw e /\
  main stod [prog; "--qty"; value]%string now_cb parsed_cb now_gm parsed_gm
  = Terminated e /\
  parse_qty stod [prog]%string = Ok default_qty /\
  parse_qty stod [prog; "--qty"]%string = Ok default_qty /\
  (forall flag, String.eqb flag "--qty" = false ->
     parse_qty stod [prog; flag; value]%string = Ok default_qty).
Proof.
  assert (P : parse_qty stod [prog; "--qty"; value]%string = Throw e)
    by (cbn; exact H).
  split; [exact P|]. split; [unfold main; rewrite P; reflexivity|].
  split; [reflexivity|]. split; [reflexivity|].
  intros flag F. cbn. now rewrite F.
Qed.

Lemma main_malformed_qty_witness :
  stod_decimal "abc" = Throw invalid_argument /\
  main stod_decimal ["prog"; "--qty"; "abc"]%string
       5000000000 (Ok coinbase_sample) 5000000000 (Ok gemini_sample)
  = Terminated invalid_argument.
Proof.
  split; [reflexivity|].
  exact (proj1 (proj2 (@main_malformed_qty stod_decimal "prog" "abc" invalid_argument
           5000000000 (Ok coinbase_sample) 5000000000 (Ok gemini_sample)
           eq_refl))).
Defined.

(* ================================================================= *)
(** * Further properties of the code *)

(** ** What the sort buys *)

Lemma walk_cost_mono (l : list (Order Q)) :
  forall q1 q2 c1 c2, q1 == q2 -> c1 <= c2 ->
    fst (walk l q1 c1) == fst (walk l q2 c2) /\
    snd (walk l q1 c1) <= snd (walk l q2 c2).
Proof.
  induction l as [|o l IH]; intros q1 q2 c1 c2 Hq Hc.
  - cbn. split; assumption.
  - walk_step; try lra; try (split; nra); try (apply IH; nra).
Qed.

Lemma no_dearer_refl (l : list (Order Q)) : no_dearer l l.
Proof. intros q c _. split; [reflexivity | apply Qle_refl]. Qed.

Lemma no_dearer_trans (l1 l2 l3 : list (Order Q)) :
  no_dearer l1 l2 -> no_dearer l2 l3 -> no_dearer l1 l3.
Proof.
  intros A B q c Hq. destruct (A q c Hq) as [A1 A2], (B q c Hq) as [B1 B2].
  split; [rewrite A1; exact B1 | lra].
Qed.

Lemma no_dearer_cons (x : Order Q) (l l' : list (Order Q)) :
  no_dearer l l' -> no_dearer (x :: l) (x :: l').
Proof.
  intros A q c Hq.
  walk_step; try (split; [reflexivity | apply Qle_refl]); apply A; lra.
Qed.

(** Visiting the cheaper of two neighbours first never costs more. *)
Lemma no_dearer_swap (x y : Order Q) (l : list (Order Q)) :
  nonneg_qty x -> nonneg_qty y -> price y <= price x ->
  no_dearer (y :: x :: l) (x :: y :: l).
Proof.
  unfold nonneg_qty. intros Fx Fy P q c Hq.
  walk_step; try lra; try (split; nra); try (apply walk_cost_mono; nra).
Qed.

Lemma sort_insert_no_dearer (x : Order Q) (s : list (Order Q)) :
  nonneg_qty x -> Forall nonneg_qty s ->
  no_dearer (sort_insert price_less x s) (x :: s).
Proof.
  intros Fx Fs. induction Fs as [|y s Fy Fs IH]; cbn [sort_insert].
  - apply no_dearer_refl.
  - destruct (price_less y x) eqn:E; [|apply no_dearer_refl].
    apply ltb_Q_true in E.
    eapply no_dearer_trans; [apply no_dearer_cons, IH|].
    apply no_dearer_swap; auto. lra.
Qed.

Lemma std_sort_no_dearer (l : list (Order Q)) :
  Forall nonneg_qty l -> no_dearer (std_sort price_less l) l.
Proof.
  induction 1 as [|x l Fx Fl IH]; cbn [std_sort]; [apply no_dearer_refl|].
  eapply no_dearer_trans; [|apply no_dearer_cons, IH].
  apply sort_insert_no_dearer; [exact Fx|].
  eapply Permutation_Forall; [symmetry; apply std_sort_perm | exact Fl].
Qed.

Lemma negate_price_nonneg (l : list (Order Q)) :
  Forall nonneg_qty l -> Forall nonneg_qty (map negate_price l).
Proof. induction 1; cbn [map]; constructor; auto. Qed.

(** The loop over the pool in any order lies between the two sorted
    walks. *)
Lemma walk_between_sorted (pool visited : list (Order Q)) (q : Q) :
  Forall nonneg_qty pool -> Permutation pool visited -> 0 <= q ->
  snd (executeBuy pool q) <= snd (walk visited q 0) /\
  snd (walk visited q 0) <= snd (executeSell pool q).
Proof.
  intros F P Hq.
  assert (F' : Forall nonneg_qty visited) by (eapply Permutation_Forall; eassumption).
  destruct (execute_perm q F P) as [B S]. split.
  - rewrite B. unfold executeBuy, executeBuy_locals. cbn [snd zero Q_ops].
    apply std_sort_no_dearer; assumption.
  - rewrite S. unfold executeSell, executeSell_locals. cbn [snd zero Q_ops].
    destruct (walk_negate (std_sort price_greater visited) q (c := 0) (c' := 0))
      as [_ E1]; [lra|].
    destruct (walk_negate visited q (c := 0) (c' := 0)) as [_ E2]; [lra|].
    rewrite <- sort_negate in E1.
    pose proof (std_sort_no_dearer (negate_price_nonneg F')) as L.
    destruct (L q 0 Hq) as [_ L']. lra.
Qed.

(** In exact arithmetic, what holds of a buy holds of a sale: on bids of
    non-negative price and quantity the revenue does not decrease when the
    quantity grows from [q1 >= 0] to [q2 >= q1]; [executeSell] never
    consumes more than the total quantity bid; and when that total is less
    than the quantity asked, the revenue is the sum of [quantity * price]
    over all bids. *)
Lemma executeSell_monotone_partial (bids : list (Order Q)) (q1 q2 : Q)
  (Fp : Forall nonneg_price bids) (Fq : Forall nonneg_qty bids)
  (H1 : 0 <= q1) (H12 : q1 <= q2) :
  snd (executeSell bids q1) <= snd (executeSell bids q2) /\
  q2 - fst (executeSell_locals bids q2) <= total_qty bids /\
  (total_qty bids < q2 -> snd (executeSell bids q2) == total_value bids).
Proof.
  unfold executeSell, executeSell_locals. cbn [snd zero Q_ops].
  pose proof (std_sort_perm price_greater bids) as P.
  pose proof (total_qty_perm P) as Tq. pose proof (total_value_perm P) as Tv.
  symmetry in P.
  pose proof (Permutation_Forall P Fp) as Fp'.
  pose proof (Permutation_Forall P Fq) as Fq'.
  split; [apply walk_mono; try assumption; lra|].
  split; [rewrite <- Tq; now apply walk_consumed|].
  intro Hq. destruct (walk_exhaust Fq' (q := q2) 0) as [S1 _]; lra.
Qed.

(** ** Levels beyond the fill *)

Lemma walk_filled_prefix (l1 l2 : list (Order Q)) :
  Forall nonneg_qty l1 ->
  forall q c, 0 < q -> q <= total_qty l1 ->
    fst (walk (l1 ++ l2) q c) == fst (walk l1 q c) /\
    snd (walk (l1 ++ l2) q c) == snd (walk l1 q c).
Proof.
  induction 1 as [|o l1 Fo Fl IH]; intros q c Hq Ht; cbn [total_qty] in Ht.
  - lra.
  - unfold nonneg_qty in Fo. cbn [app].
    walk_step; try lra; try (split; reflexivity).
    apply IH; lra.
Qed.

Lemma StronglySorted_app_le (l1 l2 : list (Order Q)) :
  StronglySorted price_le l1 -> StronglySorted price_le l2 ->
  (forall a b, In a l1 -> In b l2 -> price_le a b) ->
  StronglySorted price_le (l1 ++ l2).
Proof.
  induction 1 as [|x l1 S1 IH Fx]; intros S2 C; cbn [app]; [exact S2|].
  constructor.
  - apply IH; [exact S2|]. intros a b Ha Hb. apply C; [now right | exact Hb].
  - apply Forall_app. split; [exact Fx|].
    apply Forall_forall. intros b Hb. apply C; [now left | exact Hb].
Qed.

(** In exact arithmetic, liquidity beyond the fill does not change the
    price of a buy: when
    the asks on offer hold at least the quantity asked ([0 < q]), adding
    asks priced no lower than any of them leaves the cost of [executeBuy]
    as it was. *)
Lemma deeper_asks_irrelevant (asks deeper : list (Order Q)) (q : Q)
  (Fa : Forall nonneg_qty asks) (Fd : Forall nonneg_qty deeper)
  (Hq : 0 < q) (Ht : q <= total_qty asks)
  (Hp : forall a d, In a asks -> In d deeper -> price a <= price d) :
  snd (executeBuy (asks ++ deeper) q) == snd (executeBuy asks q).
Proof.
  unfold executeBuy, executeBuy_locals. cbn [snd zero Q_ops].
  pose proof (std_sort_perm price_less asks) as Pa.
  pose proof (std_sort_perm price_less deeper) as Pd.
  pose proof (std_sort_perm price_less (asks ++ deeper)) as Pad.
  assert (Fa' : Forall nonneg_qty (std_sort price_less asks))
    by (eapply Permutation_Forall; [symmetry; exact Pa | exact Fa]).
  assert (E : snd (walk (std_sort price_less (asks ++ deeper)) q 0)
              == snd (walk (std_sort price_less asks ++ std_sort price_less deeper) q 0)).
  { apply sorted_walk_unique.
    - eapply Permutation_Forall; [symmetry; exact Pad|].
      apply Forall_app; now split.
    - rewrite Pad, Pa, Pd. reflexivity.
    - left. split; [apply sort_ascending|].
      apply StronglySorted_app_le; try apply sort_ascending.
      intros a d Ha Hd. apply Hp.
      + eapply Permutation_in; [exact Pa | exact Ha].
      + eapply Permutation_in; [exact Pd | exact Hd]. }
  rewrite E. apply walk_filled_prefix; [exact Fa' | exact Hq|].
  rewrite (total_qty_perm Pa). exact Ht.
Qed.

(** ** The price paid per unit *)

Lemma walk_price_bounds (lo hi : Q) (l : list (Order Q)) :
  Forall nonneg_qty l ->
  Forall (fun o => lo <= price o /\ price o <= hi) l ->
  forall q c, 0 <= q ->
    c + lo * (q - fst (walk l q c)) <= snd (walk l q c) /\
    snd (walk l q c) <= c + hi * (q - fst (walk l q c)).
Proof.
  induction 1 as [|o l Fo Fl IH]; intros B q c Hq.
  - cbn. split; nra.
  - inversion_clear B as [|? ? [Bl Bh] B']. unfold nonneg_qty in Fo.
    specialize (IH B').
    walk_step; try lra; try (split; nra).
    all: match goal with
         | |- context [walk _ ?q' ?c'] =>
             destruct (IH q' c') as [L U]; [lra|]; split; nra
         end.
Qed.

(** In exact arithmetic, the cost of a buy and the revenue of a sale lie
    between the lowest
    and the highest price of the pool, times the quantity filled (the
    quantity asked minus the local [qty] at the [return]): on levels of
    non-negative quantity whose prices lie in [[lo, hi]], for [q >= 0]. *)
Lemma execute_price_bounds (lo hi : Q) (pool : list (Order Q)) (q : Q)
  (F : Forall nonneg_qty pool)
  (B : Forall (fun o => lo <= price o /\ price o <= hi) pool)
  (Hq : 0 <= q) :
  lo * (q - fst (executeBuy_locals pool q)) <= snd (executeBuy pool q) /\
  snd (executeBuy pool q) <= hi * (q - fst (executeBuy_locals pool q)) /\
  lo * (q - fst (executeSell_locals pool q)) <= snd (executeSell pool q) /\
  snd (executeSell pool q) <= hi * (q - fst (executeSell_locals pool q)).
Proof.
  unfold executeBuy, executeBuy_locals, executeSell, executeSell_locals.
  cbn [snd zero Q_ops].
  assert (S : forall comp,
             0 + lo * (q - fst (walk (std_sort comp pool) q 0))
             <= snd (walk (std_sort comp pool) q 0) /\
             snd (walk (std_sort comp pool) q 0)
             <= 0 + hi * (q - fst (walk (std_sort comp pool) q 0))).
  { intro comp. pose proof (std_sort_perm comp pool) as P. symmetry in P.
    apply walk_price_bounds; [| | exact Hq].
    - exact (Permutation_Forall P F).
    - exact (Permutation_Forall P B). }
  destruct (S price_less) as [L1 U1], (S price_greater) as [L2 U2].
  repeat split; lra.
Qed.

(** ** [WriteCallback] *)

Lemma size_t_mul_small (a b : N) :
  (a * b < 2 ^ 64)%N -> size_t_mul a b = (a * b)%N.
Proof. intro H. unfold size_t_mul. now apply N.mod_small. Qed.

(** X6. [WriteCallback] keeps what the string holds and adds the bytes it
    is handed: over the calls of one transfer, each handing over a buffer
    of exactly [size * nmemb < 2^64] bytes, the string ends as what it was
    followed by all the buffers in order, and every call returns the
    number of bytes it was handed (never a short count, which would abort
    the transfer). *)
Theorem write_all_appends (calls : list (list ascii * N * N)) (userp : list ascii)
  (H : Forall (fun '(contents, size, nmemb) =>
                 (size * nmemb < 2 ^ 64)%N /\
                 N.of_nat (List.length contents) = (size * nmemb)%N) calls) :
  fst (write_all calls userp) = userp ++ List.concat (map (fun x => fst (fst x)) calls) /\
  snd (write_all calls userp) = map (fun x => N.of_nat (List.length (fst (fst x)))) calls.
Proof.
  revert userp. induction H as [|[[contents size] nmemb] calls [Hs Hl] _ IH];
    intro userp; cbn [write_all map List.concat fst snd].
  - now rewrite app_nil_r.
  - unfold WriteCallback. rewrite size_t_mul_small by exact Hs.
    rewrite <- Hl, Nnat.Nat2N.id, firstn_all.
    specialize (IH (userp ++ contents)).
    destruct (write_all calls (userp ++ contents)) as [final ns].
    cbn [fst snd] in *. destruct IH as [-> ->].
    now rewrite app_assoc.
Qed.

Lemma write_all_appends_witness :
  fst (write_all [(["{"%char; "}"%char], 1%N, 2%N); (["x"%char], 1%N, 1%N)] [])
  = ["{"%char; "}"%char; "x"%char] /\
  snd (write_all [(["{"%char; "}"%char], 1%N, 2%N); (["x"%char], 1%N, 1%N)] [])
  = [2%N; 1%N].
Proof.
  apply (@write_all_appends
           [(["{"%char; "}"%char], 1%N, 2%N); (["x"%char], 1%N, 1%N)] []).
  repeat constructor.
Defined.

(** ** Successive calls of [allow()] *)

Lemma grants_chain (hi : Z) (nows : list Z) :
  Forall (fun n => (n <= hi)%Z) nows ->
  forall s, grants nows s <> [] ->
    (RateLimiter.lastCallNs s
     + Z.of_nat (List.length (grants nows s)) * RateLimiter.cooldown <= hi)%Z.
Proof.
  induction 1 as [|n nows Hn _ IH]; intros s Ne; cbn [grants] in *;
    [contradiction|].
  rewrite RateLimiterFacts.allow_spec in *.
  destruct (Z.ltb_spec (n - RateLimiter.lastCallNs s) RateLimiter.cooldown) as [D|G];
    cbn [fst snd] in *.
  - now apply IH.
  - cbn [List.length]. destruct (grants nows (RateLimiter.mk n)) eqn:E.
    + unfold RateLimiter.cooldown in *. cbn [List.length]. lia.
    + specialize (IH (RateLimiter.mk n)). rewrite E in IH.
      cbn [RateLimiter.lastCallNs] in IH.
      assert (Ne' : z :: l <> []) by discriminate. specialize (IH Ne').
      rewrite Nat2Z.inj_succ. unfold RateLimiter.cooldown in *. lia.
Qed.

(** X7. The limiter bounds the rate: of any number of successive calls of
    [allow()] on one limiter whose clock readings lie in [[lo, hi]], at
    most [(hi - lo) / cooldown + 1] return [true], whatever the limiter
    held before. *)
Theorem grants_bounded (lo hi : Z) (nows : list Z) (s : RateLimiter.t)
  (H : Forall (fun n => (lo <= n <= hi)%Z) nows) (Hlh : (lo <= hi)%Z) :
  (Z.of_nat (List.length (grants nows s)) <= (hi - lo) / RateLimiter.cooldown + 1)%Z.
Proof.
  assert (C : (0 < RateLimiter.cooldown)%Z) by reflexivity.
  revert s. induction H as [|n nows [Hl Hh] Hr IH]; intro s; cbn [grants].
  - cbn. pose proof (Z.div_pos (hi - lo) RateLimiter.cooldown). lia.
  - destruct (fst (RateLimiter.allow n s)) eqn:A; [|apply IH].
    rewrite RateLimiterFacts.allow_spec in *.
    destruct (Z.ltb_spec (n - RateLimiter.lastCallNs s) RateLimiter.cooldown);
      cbn [fst snd] in *; [discriminate|].
    cbn [List.length]. rewrite Nat2Z.inj_succ.
    destruct (grants nows (RateLimiter.mk n)) eqn:E.
    + cbn. pose proof (Z.div_pos (hi - lo) RateLimiter.cooldown). lia.
    + assert (B : (RateLimiter.lastCallNs (RateLimiter.mk n)
                   + Z.of_nat (List.length (grants nows (RateLimiter.mk n)))
                     * RateLimiter.cooldown <= hi)%Z).
      { apply grants_chain; [|rewrite E; discriminate].
        eapply Forall_impl; [|exact Hr]. cbn. intros; lia. }
      rewrite E in B. cbn [RateLimiter.lastCallNs] in B.
      apply Z.lt_succ_r. apply Z.lt_succ_r.
      rewrite <- Z.add_1_r.
      assert (Z.of_nat (List.length (z :: l)) * RateLimiter.cooldown <= hi - lo)%Z by lia.
      assert (Z.of_nat (List.length (z :: l)) <= (hi - lo) / RateLimiter.cooldown)%Z
        by (apply Z.div_le_lower_bound; lia).
      lia.
Qed.

Lemma grants_bounded_witness :
  grants [5000000000; 5500000000; 7000000000; 8999999999]%Z RateLimiter.init
  = [5000000000; 7000000000]%Z /\
  (Z.of_nat (List.length
     (grants [5000000000; 5500000000; 7000000000; 8999999999]%Z RateLimiter.init))
   <= (8999999999 - 5000000000) / RateLimiter.cooldown + 1)%Z.
Proof.
  split; [reflexivity|].
  apply (@grants_bounded 5000000000 8999999999
           [5000000000; 5500000000; 7000000000; 8999999999]%Z RateLimiter.init).
  - repeat constructor; discriminate.
  - discriminate.
Defined.

Lemma allow_each_step (now : Z) (rest : list Z) (s : RateLimiter.t) :
  allow_each (now :: rest) s
  = (fst (RateLimiter.allow now s) :: fst (allow_each rest (snd (RateLimiter.allow now s))),
     snd (allow_each rest (snd (RateLimiter.allow now s)))).
Proof.
  cbn [allow_each]. destruct (RateLimiter.allow now s) as [ok s'].
  cbn [fst snd]. now destruct (allow_each rest s').
Qed.

(** X8. Over any number of successive calls of [allow()] with clock
    readings that are not negative and fit [long long], a limiter that
    holds such a time keeps holding one, so that [now - last] does not
    overflow at the next call either; the time it holds never goes back;
    and it answers one [bool] per call. *)
Theorem allow_each_in_range (nows : list Z) (s : RateLimiter.t)
  (H : Forall in_range nows) (Hs : in_range (RateLimiter.lastCallNs s)) :
  in_range (RateLimiter.lastCallNs (snd (allow_each nows s))) /\
  (RateLimiter.lastCallNs s <= RateLimiter.lastCallNs (snd (allow_each nows s)))%Z /\
  List.length (fst (allow_each nows s)) = List.length nows /\
  (forall now, in_range now ->
     (- 2 ^ 63 <= now - RateLimiter.lastCallNs (snd (allow_each nows s)) < 2 ^ 63)%Z).
Proof.
  unfold in_range in *.
  revert s Hs. induction H as [|n nows Hn Hr IH]; intros s Hs.
  - cbn. repeat split; try lia; intros; lia.
  - rewrite allow_each_step. cbn [fst snd List.length].
    rewrite RateLimiterFacts.allow_spec.
    destruct (Z.ltb_spec (n - RateLimiter.lastCallNs s) RateLimiter.cooldown) as [D|G];
      cbn [snd].
    + destruct (IH s Hs) as (I1 & I2 & I3 & I4).
      repeat split; try lia; intros now [? ?]; specialize (I4 now); lia.
    + assert (Hn' : (0 <= RateLimiter.lastCallNs (RateLimiter.mk n) < 2 ^ 63)%Z)
        by (cbn; exact Hn).
      destruct (IH (RateLimiter.mk n) Hn') as (I1 & I2 & I3 & I4).
      cbn [RateLimiter.lastCallNs] in I2. unfold RateLimiter.cooldown in G.
      repeat split; try lia; intros now [? ?]; specialize (I4 now); lia.
Qed.

Lemma allow_each_in_range_witness :
  in_range (RateLimiter.lastCallNs
              (snd (allow_each [5000000000; 5500000000; 7000000000]%Z RateLimiter.init))) /\
  fst (allow_each [5000000000; 5500000000; 7000000000]%Z RateLimiter.init)
  = [true; false; true].
Proof.
  split; [|reflexivity].
  apply (@allow_each_in_range [5000000000; 5500000000; 7000000000]%Z RateLimiter.init).
  - repeat constructor; discriminate.
  - split; [discriminate | reflexivity].
Defined.

(** ** What [fetch()] reads *)

Lemma for_each_Ok (A B : Type) (body : A -> result B) (l : list A) (bs : list B) :
  for_each body l = Ok bs <-> Forall2 (fun a b => body a = Ok b) l bs.
Proof.
  revert bs. induction l as [|a l IH]; intro bs; cbn [for_each].
  - split; [intro E; inversion E; constructor | intro F; now inversion F].
  - destruct (body a) as [b|e] eqn:Ea; cbn [bind].
    + destruct (for_each body l) as [bs'|e'] eqn:El; cbn [bind].
      * split.
        -- intro E. inversion E; subst. constructor; [exact Ea | now apply IH].
        -- intro F. inversion F as [|? b0 ? bs0 Hb Hl]; subst.
           apply IH in Hl. congruence.
      * split; [discriminate|].
        intro F. inversion F as [|? b0 ? bs0 Hb Hl]; subst.
        apply IH in Hl. discriminate.
    + split; [discriminate|].
      intro F. inversion F; subst. congruence.
Qed.

Lemma for_each_Throw (A B : Type) (body : A -> result B) (l : list A) (a : A) (e : exn) :
  In a l -> body a = Throw e -> exists e', for_each body l = Throw e'.
Proof.
  intros Ha Ea. destruct (for_each body l) as [bs|e'] eqn:E; [|now exists e'].
  apply for_each_Ok in E. exfalso.
  induction E as [|x b l bs Hx _ IH]; [contradiction|].
  destruct Ha as [->|Ha]; [congruence | auto].
Qed.

Lemma fetch_with_allowed (level : json -> result (Order Q))
      (limiter : RateLimiter.t) (now : Z) (parsed : result json) :
  fst (RateLimiter.allow now limiter) = true ->
  fetch_with level limiter now parsed
  = mkRun (j <- parsed ;;
           jb <- at_key j "bids" ;;
           bs <- for_each level (items jb) ;;
           ja <- at_key j "asks" ;;
           az <- for_each level (items ja) ;;
           Ok (mkOrderBook bs az))
          (RateLimiter.mk now) 1.
Proof.
  unfold fetch_with. rewrite RateLimiterFacts.allow_spec.
  destruct (now - RateLimiter.lastCallNs limiter <? RateLimiter.cooldown)%Z;
    cbn; [discriminate | reflexivity].
Qed.

Lemma fetch_with_Ok (level : json -> result (Order Q))
      (limiter : RateLimiter.t) (now : Z) (j : json) (ob : OrderBook Q) :
  fst (RateLimiter.allow now limiter) = true ->
  (outcome (fetch_with level limiter now (Ok j)) = Ok ob <->
   exists jb ja,
     at_key j "bids" = Ok jb /\ at_key j "asks" = Ok ja /\
     Forall2 (fun b o => level b = Ok o) (items jb) (bids ob) /\
     Forall2 (fun a o => level a = Ok o) (items ja) (asks ob)).
Proof.
  intro G. rewrite (@fetch_with_allowed level limiter now (Ok j) G).
  cbn [outcome bind]. split.
  - destruct (at_key j "bids") as [jb|] eqn:Eb; cbn [bind]; [|discriminate].
    destruct (for_each level (items jb)) as [bs|] eqn:Fb; cbn [bind]; [|discriminate].
    destruct (at_key j "asks") as [ja|] eqn:Ea; cbn [bind]; [|discriminate].
    destruct (for_each level (items ja)) as [az|] eqn:Fa; cbn [bind]; [|discriminate].
    intro E. inversion E; subst. exists jb, ja. cbn [bids asks].
    repeat split; try reflexivity; now apply for_each_Ok.
  - intros (jb & ja & Eb & Ea & Fb & Fa).
    apply for_each_Ok in Fb, Fa.
    rewrite Eb. cbn [bind]. rewrite Fb. cbn [bind].
    rewrite Ea. cbn [bind]. rewrite Fa. cbn [bind]. now destruct ob.
Qed.

(** X10. A [fetch()] that returns delivers every level of the document,
    in the document's order and none twice: with the limiter allowing the
    call and the response parsed to [j], the book returned has one bid per
    entry of [j["bids"]] and one ask per entry of [j["asks"]], each the
    reading of the entry at the same position; and any book so related to
    the document is the one returned.  Nothing is filtered, merged or
    reordered. *)
Theorem fetch_reads_every_level (stod : string -> result Q)
  (limiter : RateLimiter.t) (now : Z) (j : json) (ob : OrderBook Q)
  (G : fst (RateLimiter.allow now limiter) = true) :
  (outcome (CoinbaseExchange_fetch stod limiter now (Ok j)) = Ok ob <->
   exists jb ja,
     at_key j "bids" = Ok jb /\ at_key j "asks" = Ok ja /\
     Forall2 (fun b o => coinbase_level stod b = Ok o) (items jb) (bids ob) /\
     Forall2 (fun a o => coinbase_level stod a = Ok o) (items ja) (asks ob)) /\
  (outcome (GeminiExchange_fetch stod limiter now (Ok j)) = Ok ob <->
   exists jb ja,
     at_key j "bids" = Ok jb /\ at_key j "asks" = Ok ja /\
     Forall2 (fun b o => gemini_level stod b = Ok o) (items jb) (bids ob) /\
     Forall2 (fun a o => gemini_level stod a = Ok o) (items ja) (asks ob)).
Proof. split; now apply fetch_with_Ok. Qed.

Lemma fetch_reads_every_level_witness :
  fst (RateLimiter.allow 5000000000 RateLimiter.init) = true /\
  exists jb ja,
    at_key coinbase_sample "bids" = Ok jb /\ at_key coinbase_sample "asks" = Ok ja /\
    Forall2 (fun b o => coinbase_level stod_decimal b = Ok o) (items jb)
            [mkOrder 100 1; mkOrder 90 5] /\
    Forall2 (fun a o => coinbase_level stod_decimal a = Ok o) (items ja)
            [mkOrder 50000 (1 # 2)].
Proof.
  split; [reflexivity|].
  exact (proj1 (proj1 (@fetch_reads_every_level stod_decimal RateLimiter.init
           5000000000 coinbase_sample
           (mkOrderBook [mkOrder 100 1; mkOrder 90 5] [mkOrder 50000 (1 # 2)])
           eq_refl)) eq_refl).
Defined.

(** X11. One level that cannot be read loses the whole book: when the
    limiter allows the call and some entry of [j["bids"]] or of
    [j["asks"]] makes the reading of a level throw, [fetch()] throws and
    returns no order at all, however many other levels are well formed. *)
Theorem fetch_bad_level_throws (stod : string -> result Q)
  (limiter : RateLimiter.t) (now : Z) (j jl bad : json) (side : string) (e : exn)
  (G : fst (RateLimiter.allow now limiter) = true)
  (Hs : side = "bids"%string \/ side = "asks"%string)
  (Hk : at_key j side = Ok jl) (Hin : In bad (items jl)) :
  (coinbase_level stod bad = Throw e ->
   exists e', outcome (CoinbaseExchange_fetch stod limiter now (Ok j)) = Throw e') /\
  (gemini_level stod bad = Throw e ->
   exists e', outcome (GeminiExchange_fetch stod limiter now (Ok j)) = Throw e').
Proof.
  assert (W : forall level, level bad = Throw e ->
              exists e', outcome (fetch_with level limiter now (Ok j)) = Throw e').
  { intros level Hb. rewrite (@fetch_with_allowed level limiter now (Ok j) G).
    cbn [outcome bind].
    destruct (at_key j "bids") as [jb|eb] eqn:Eb; cbn [bind]; [|now exists eb].
    destruct (for_each level (items jb)) as [bs|e1] eqn:Fb; cbn [bind];
      [|now exists e1].
    destruct (at_key j "asks") as [ja|ea] eqn:Ea; cbn [bind]; [|now exists ea].
    destruct (for_each level (items ja)) as [az|e2] eqn:Fa; cbn [bind];
      [|now exists e2].
    exfalso. destruct Hs as [->| ->].
    - rewrite Eb in Hk. inversion Hk; subst.
      destruct (for_each_Throw level _ _ Hin Hb). congruence.
    - rewrite Ea in Hk. inversion Hk; subst.
      destruct (for_each_Throw level _ _ Hin Hb). congruence. }
  split; apply W.
Qed.

Lemma fetch_bad_level_throws_witness :
  exists e',
    outcome (CoinbaseExchange_fetch stod_decimal RateLimiter.init 5000000000
               (Ok (Jobject [("bids"%string,
                              Jarray [Jarray [Jstring "100"; Jstring "1"];
                                      Jarray [Jstring "n/a"; Jstring "1"]])])))
    = Throw e'.
Proof.
  apply (proj1 (@fetch_bad_level_throws stod_decimal RateLimiter.init 5000000000
           (Jobject [("bids"%string,
                      Jarray [Jarray [Jstring "100"; Jstring "1"];
                              Jarray [Jstring "n/a"; Jstring "1"]])])
           (Jarray [Jarray [Jstring "100"; Jstring "1"];
                    Jarray [Jstring "n/a"; Jstring "1"]])
           (Jarray [Jstring "n/a"; Jstring "1"]) "bids" invalid_argument
           eq_refl (or_introl eq_refl) eq_refl (or_intror (or_introl eq_refl)))).
  reflexivity.
Defined.

(** X13. A document without the keys [bids] and [asks] is read as an empty
    book, silently: with the limiter allowing the call, a null document
    and an object that has neither key (an error reply, say) make
    [fetch()] return no bids and no asks; a document that is neither null
    nor an object makes it throw [type_error]. *)
Theorem fetch_without_keys (stod : string -> result Q)
  (limiter : RateLimiter.t) (now : Z) (j : json)
  (G : fst (RateLimiter.allow now limiter) = true) :
  (j = Jnull \/
   (exists members, j = Jobject members /\
      find_member "bids" members = Jnull /\ find_member "asks" members = Jnull) ->
   outcome (CoinbaseExchange_fetch stod limiter now (Ok j)) = Ok empty_book /\
   outcome (GeminiExchange_fetch stod limiter now (Ok j)) = Ok empty_book) /\
  (j <> Jnull -> (forall members, j <> Jobject members) ->
   outcome (CoinbaseExchange_fetch stod limiter now (Ok j)) = Throw type_error /\
   outcome (GeminiExchange_fetch stod limiter now (Ok j)) = Throw type_error).
Proof.
  unfold CoinbaseExchange_fetch, GeminiExchange_fetch.
  rewrite !(fun level => @fetch_with_allowed level limiter now (Ok j) G).
  cbn [outcome bind]. split.
  - intros [->|(members & -> & Eb & Ea)]; cbn [at_key bind].
    + split; reflexivity.
    + rewrite Eb, Ea. split; reflexivity.
  - intros N1 N2. destruct j; cbn [at_key bind]; try (split; reflexivity).
    + contradiction.
    + now destruct (N2 members).
Qed.

Lemma fetch_without_keys_witness :
  outcome (CoinbaseExchange_fetch stod_decimal RateLimiter.init 5000000000
             (Ok (Jobject [("message"%string, Jstring "rate limit exceeded")])))
  = Ok empty_book /\
  outcome (GeminiExchange_fetch stod_decimal RateLimiter.init 5000000000
             (Ok (Jarray [])))
  = Throw type_error.
Proof.
  split.
  - apply (proj1 (@fetch_without_keys stod_decimal RateLimiter.init 5000000000
             (Jobject [("message"%string, Jstring "rate limit exceeded")]) eq_refl)).
    right. eexists. repeat split.
  - apply (proj2 (@fetch_without_keys stod_decimal RateLimiter.init 5000000000
             (Jarray []) eq_refl)); discriminate.
Defined.

(** X14. A call of [fetch()] that the limiter allows uses up the window
    whatever comes of it: after a first call at [t1], a second call on the
    same exchange at [t2] less than a cooldown later makes no transfer and
    returns the empty book, also when the first call threw. *)
Theorem second_fetch_within_cooldown (stod : string -> result Q)
  (limiter : RateLimiter.t) (t1 t2 : Z) (parsed1 parsed2 : result json)
  (H1 : (RateLimiter.cooldown <= t1 - RateLimiter.lastCallNs limiter)%Z)
  (H2 : (t1 <= t2 < t1 + RateLimiter.cooldown)%Z) :
  transfers (CoinbaseExchange_fetch stod limiter t1 parsed1) = 1%nat /\
  CoinbaseExchange_fetch stod
    (limiter_after (CoinbaseExchange_fetch stod limiter t1 parsed1)) t2 parsed2
  = mkRun (Ok empty_book) (RateLimiter.mk t1) 0 /\
  transfers (GeminiExchange_fetch stod limiter t1 parsed1) = 1%nat /\
  GeminiExchange_fetch stod
    (limiter_after (GeminiExchange_fetch stod limiter t1 parsed1)) t2 parsed2
  = mkRun (Ok empty_book) (RateLimiter.mk t1) 0.
Proof.
  assert (G : fst (RateLimiter.allow t1 limiter) = true).
  { rewrite RateLimiterFacts.allow_spec.
    destruct (Z.ltb_spec (t1 - RateLimiter.lastCallNs limiter) RateLimiter.cooldown);
      [lia | reflexivity]. }
  assert (D : fst (RateLimiter.allow t2 (RateLimiter.mk t1)) = false).
  { rewrite RateLimiterFacts.allow_spec. cbn [RateLimiter.lastCallNs].
    destruct (Z.ltb_spec (t2 - t1) RateLimiter.cooldown); [reflexivity | lia]. }
  unfold CoinbaseExchange_fetch, GeminiExchange_fetch.
  rewrite !(fun level => @fetch_with_allowed level limiter t1 parsed1 G).
  cbn [transfers limiter_after].
  repeat split; apply fetch_with_denied; exact D.
Qed.

Lemma second_fetch_within_cooldown_witness :
  CoinbaseExchange_fetch stod_decimal
    (limiter_after (CoinbaseExchange_fetch stod_decimal RateLimiter.init
                      5000000000 (Throw parse_error)))
    6000000000 (Ok coinbase_sample)
  = mkRun (Ok empty_book) (RateLimiter.mk 5000000000) 0.
Proof.
  apply (@second_fetch_within_cooldown stod_decimal RateLimiter.init
           5000000000 6000000000 (Throw parse_error) (Ok coinbase_sample)).
  - discriminate.
  - split; [discriminate | reflexivity].
Defined.

(** ** How [main] ends *)

Lemma main_unfold (stod : string -> result Q) (argv : list string)
      (now_cb : Z) (parsed_cb : result json) (now_gm : Z) (parsed_gm : result json) :
  main stod argv now_cb parsed_cb now_gm parsed_gm =
  match parse_qty stod argv with
  | Throw e => Terminated e
  | Ok q =>
      match outcome (CoinbaseExchange_fetch stod RateLimiter.init now_cb parsed_cb) with
      | Throw e => Terminated e
      | Ok cb =>
          match outcome (GeminiExchange_fetch stod RateLimiter.init now_gm parsed_gm) with
          | Throw e => Terminated e
          | Ok gm =>
              Exit 0 [ToBuy q (snd (executeBuy (asks cb ++ asks gm) q));
                      ToSell q (snd (executeSell (bids cb ++ bids gm) q))]
          end
      end
  end.
Proof.
  unfold main. destruct (parse_qty stod argv); cbn [bind]; [|reflexivity].
  destruct (outcome (CoinbaseExchange_fetch stod RateLimiter.init now_cb parsed_cb));
    cbn [bind]; [|reflexivity].
  destruct (outcome (GeminiExchange_fetch stod RateLimiter.init now_gm parsed_gm));
    cbn [bind]; reflexivity.
Qed.

(** X16. Both limiters of [main] are new and hold time 0, so a clock that
    reads less than the cooldown (a [steady_clock] less than 2 s from its
    epoch) makes both [fetch()] return the empty book without a transfer:
    when the quantity parses, [main] prints a cost of 0 and a revenue of 0
    and returns 0, whatever the exchanges would have answered. *)
Theorem main_before_first_window (stod : string -> result Q) (argv : list string)
  (q : Q) (now_cb : Z) (parsed_cb : result json) (now_gm : Z) (parsed_gm : result json)
  (Hq : parse_qty stod argv = Ok q)
  (Hcb : (now_cb < RateLimiter.cooldown)%Z) (Hgm : (now_gm < RateLimiter.cooldown)%Z) :
  main stod argv now_cb parsed_cb now_gm parsed_gm = Exit 0 [ToBuy q 0; ToSell q 0].
Proof.
  assert (D : forall now, (now < RateLimiter.cooldown)%Z ->
                fst (RateLimiter.allow now RateLimiter.init) = false).
  { intros now H. rewrite RateLimiterFacts.allow_spec. cbn [RateLimiter.lastCallNs RateLimiter.init].
    destruct (Z.ltb_spec (now - 0) RateLimiter.cooldown); [reflexivity | lia]. }
  rewrite main_unfold, Hq.
  unfold CoinbaseExchange_fetch, GeminiExchange_fetch.
  rewrite !fetch_with_denied by (apply D; assumption).
  reflexivity.
Qed.

Lemma main_before_first_window_witness :
  main stod_decimal ["prog"; "--qty"; "2.5"]%string
       1000000000 (Ok coinbase_sample) 1500000000 (Ok gemini_sample)
  = Exit 0 [ToBuy (5 # 2) 0; ToSell (5 # 2) 0].
Proof.
  apply (@main_before_first_window stod_decimal ["prog"; "--qty"; "2.5"]%string (5 # 2));
    reflexivity.
Defined.

(** X17. A source that returns the empty book (its limiter refused, or the
    document had no levels) leaves the other source's prices as they are:
    the lines [main] prints are then the cost and the revenue over the
    other source's asks and bids alone. *)
Theorem main_one_source (stod : string -> result Q) (argv : list string)
  (q : Q) (ob : OrderBook Q)
  (now_cb : Z) (parsed_cb : result json) (now_gm : Z) (parsed_gm : result json)
  (Hq : parse_qty stod argv = Ok q) :
  (outcome (CoinbaseExchange_fetch stod RateLimiter.init now_cb parsed_cb) = Ok ob ->
   outcome (GeminiExchange_fetch stod RateLimiter.init now_gm parsed_gm) = Ok empty_book ->
   main stod argv now_cb parsed_cb now_gm parsed_gm
   = Exit 0 [ToBuy q (snd (executeBuy (asks ob) q));
             ToSell q (snd (executeSell (bids ob) q))]) /\
  (outcome (CoinbaseExchange_fetch stod RateLimiter.init now_cb parsed_cb) = Ok empty_book ->
   outcome (GeminiExchange_fetch stod RateLimiter.init now_gm parsed_gm) = Ok ob ->
   main stod argv now_cb parsed_cb now_gm parsed_gm
   = Exit 0 [ToBuy q (snd (executeBuy (asks ob) q));
             ToSell q (snd (executeSell (bids ob) q))]).
Proof.
  split; intros C G; rewrite main_unfold, Hq, C, G; cbn [asks bids empty_book app].
  - now rewrite !app_nil_r.
  - reflexivity.
Qed.

Lemma main_one_source_witness :
  main stod_decimal ["prog"]%string
       5000000000 (Ok coinbase_sample) 1000000000 (Ok gemini_sample)
  = Exit 0 [ToBuy 10 (snd (executeBuy [mkOrder 50000 (1 # 2)] 10));
            ToSell 10 (snd (executeSell [mkOrder 100 1; mkOrder 90 5] 10))].
Proof.
  apply (proj1 (@main_one_source stod_decimal ["prog"]%string 10
           (mkOrderBook [mkOrder 100 1; mkOrder 90 5] [mkOrder 50000 (1 # 2)])
           5000000000 (Ok coinbase_sample) 1000000000 (Ok gemini_sample) eq_refl));
    reflexivity.
Defined.

(* ================================================================= *)
(** * Binary64 runs and exact arithmetic *)

Lemma exact2_spec f g a b :
  exact2 f g a b = true ->
  finite (f a b) = true /\ valQ (f a b) == g (valQ a) (valQ b).
Proof.
  unfold exact2. rewrite !andb_true_iff, Qeq_bool_iff. tauto.
Qed.

Lemma exact_lt_spec a b :
  exact_lt a b = true -> PrimFloat.ltb a b = ltb (valQ a) (valQ b).
Proof.
  unfold exact_lt. rewrite !andb_true_iff. intros [_ E].
  now apply eqb_prop in E.
Qed.

Lemma exact_le_spec a b :
  exact_le a b = true -> PrimFloat.leb a b = leb (valQ a) (valQ b).
Proof.
  unfold exact_le. rewrite !andb_true_iff. intros [_ E].
  now apply eqb_prop in E.
Qed.

(** A run of the loop that does not round is the run of the same loop in
    exact arithmetic on the values, and its results are finite. *)
Lemma walk_exact (l : list (Order float)) :
  forall r c r' c',
    exact_walk l r c = true -> finite r = true -> finite c = true ->
    valQ r == r' -> valQ c == c' ->
    (finite (fst (walk l r c)) = true /\ finite (snd (walk l r c)) = true) /\
    valQ (fst (walk l r c)) == fst (walk (Qpool l) r' c') /\
    valQ (snd (walk l r c)) == snd (walk (Qpool l) r' c').
Proof.
  induction l as [|o l IH]; intros r c r' c' E Fr Fc Hr Hc.
  - cbn. repeat split; assumption.
  - cbn [exact_walk] in E. rewrite !andb_true_iff in E.
    destruct E as [[[[[Elt Emul] Eadd] Esub] Ele] Erest].
    apply exact_lt_spec in Elt. apply exact_le_spec in Ele.
    apply exact2_spec in Emul, Eadd, Esub.
    destruct Emul as [_ Emul], Eadd as [Fadd Eadd], Esub as [Fsub Esub].
    assert (Et : valQ (std_min r (qty o)) = std_min (valQ r) (valQ (qty o))).
    { unfold std_min. cbn [ltb binary64_ops]. rewrite Elt.
      now destruct (ltb (valQ (qty o)) (valQ r)). }
    assert (Et' : valQ (std_min r (qty o)) == std_min r' (valQ (qty o))).
    { rewrite Et. unfold std_min. cbn [ltb Q_ops].
      rewrite <- Hr. destruct (Qle_bool (valQ r) (valQ (qty o))); cbn [negb];
        [exact Hr | reflexivity]. }
    cbn [Qpool map walk]. fold (Qpool l). cbn [Qorder price qty].
    cbn [add sub mul leb zero binary64_ops Q_ops] in *.
    set (take := std_min r (qty o)) in *.
    set (takeQ := std_min r' (valQ (qty o))) in *.
    assert (Er : valQ (PrimFloat.sub r take) == r' - takeQ)
      by (rewrite Esub, Et', Hr; reflexivity).
    assert (Ec : valQ (PrimFloat.add c (PrimFloat.mul take (price o)))
                 == c' + takeQ * valQ (price o))
      by (rewrite Eadd, Emul, Et', Hc; reflexivity).
    rewrite Ele. change (valQ PrimFloat.zero) with 0.
    rewrite (Qleb_comp _ _ Er 0 0 (Qeq_refl 0)).
    destruct (Qle_bool (r' - takeQ) 0) eqn:B; cbn [fst snd].
    + repeat split; assumption.
    + rewrite Ele in Erest. change (valQ PrimFloat.zero) with 0 in Erest.
      rewrite (Qleb_comp _ _ Er 0 0 (Qeq_refl 0)), B in Erest.
      now apply IH.
Qed.

Lemma exact_prices_spec (pool : list (Order float)) (a b : Order float) :
  exact_prices pool = true -> In a pool -> In b pool ->
  price_less a b = ltb (valQ (price a)) (valQ (price b)) /\
  price_greater a b = ltb (valQ (price b)) (valQ (price a)).
Proof.
  unfold exact_prices. rewrite forallb_forall. intros E Ha Hb.
  pose proof (E a Ha) as Eab. pose proof (E b Hb) as Eba.
  rewrite forallb_forall in Eab, Eba.
  unfold price_less, price_greater. cbn [ltb binary64_ops].
  split; apply exact_lt_spec; auto.
Qed.

Lemma Qpool_app (l1 l2 : list (Order float)) :
  Qpool (l1 ++ l2) = Qpool l1 ++ Qpool l2.
Proof. apply map_app. Qed.

(** ** The vectors the sort may leave *)

Section SortedIn.
Variable pool : list (Order float).
Variable comp : Order float -> Order float -> bool.
Variable R : Order float -> Order float -> Prop.
Hypothesis R_trans_in :
  forall a b c, In a pool -> In b pool -> In c pool -> R a b -> R b c -> R a c.
Hypothesis comp_true_in :
  forall a b, In a pool -> In b pool -> comp a b = true -> R a b.
Hypothesis comp_false_in :
  forall a b, In a pool -> In b pool -> comp a b = false -> R b a.

Lemma sort_insert_sorted_in x l :
  In x pool -> incl l pool ->
  StronglySorted R l -> StronglySorted R (sort_insert comp x l).
Proof.
  intros Hx Hl S. induction S as [|y l Hs IH Hy]; cbn [sort_insert].
  - repeat constructor.
  - assert (Iy : In y pool) by (apply Hl; now left).
    assert (Il : incl l pool) by (intros z Hz; apply Hl; now right).
    destruct (comp y x) eqn:E.
    + constructor; [now apply IH|].
      rewrite Forall_forall in *. intros z Hz.
      apply (Permutation_in _ (sort_insert_perm comp x l)) in Hz.
      destruct Hz as [<-|Hz]; auto.
    + constructor; [now constructor|].
      constructor; [auto|].
      rewrite Forall_forall in *. intros z Hz.
      apply R_trans_in with (b := y); auto.
Qed.

Lemma std_sort_sorted_in l : incl l pool -> StronglySorted R (std_sort comp l).
Proof.
  induction l as [|x l IH]; intro Hl; cbn [std_sort]; [constructor|].
  assert (Il : incl l pool) by (intros z Hz; apply Hl; now right).
  apply sort_insert_sorted_in; [apply Hl; now left | | now apply IH].
  intros z Hz. apply Il.
  eapply Permutation_in; [apply std_sort_perm | exact Hz].
Qed.
End SortedIn.

Lemma sorted_perm_eq_in (R : Order float -> Order float -> Prop)
      (l1 : list (Order float)) :
  forall l2,
    (forall a b, In a l1 -> In b l1 -> R a b -> R b a -> a = b) ->
    Permutation l1 l2 ->
    StronglySorted R l1 -> StronglySorted R l2 -> l1 = l2.
Proof.
  induction l1 as [|a l1 IH]; intros l2 A P S1 S2.
  - apply Permutation_nil in P. now subst.
  - destruct l2 as [|b l2]; [apply Permutation_sym, Permutation_nil in P; discriminate|].
    inversion_clear S1 as [|? ? S1' Fa]. inversion_clear S2 as [|? ? S2' Fb].
    rewrite Forall_forall in Fa, Fb.
    assert (E : a = b).
    { assert (Ha : In a (b :: l2)) by (eapply Permutation_in; [exact P | now left]).
      assert (Hb : In b (a :: l1))
        by (eapply Permutation_in; [symmetry; exact P | now left]).
      destruct Ha as [->|Ha]; [reflexivity|].
      destruct Hb as [->|Hb]; [reflexivity|].
      apply A; [now left | now right | auto | auto]. }
    subst b. f_equal. apply IH; [|now apply Permutation_cons_inv in P| |]; auto.
    intros x y Hx Hy. apply A; now right.
Qed.

(** The insertion sort of the model leaves one of the vectors [std::sort]
    may leave. *)
Lemma std_sort_sorted_for (pool : list (Order float)) :
  exact_prices pool = true ->
  sorted_for price_less pool (std_sort price_less pool) /\
  sorted_for price_greater pool (std_sort price_greater pool).
Proof.
  intro E. split; (split; [symmetry; apply std_sort_perm|]).
  - apply std_sort_sorted_in with (pool := pool); [| | |apply incl_refl].
    + intros a b c Ha Hb Hc. cbv beta.
      rewrite (proj1 (@exact_prices_spec pool b a E Hb Ha)),
              (proj1 (@exact_prices_spec pool c b E Hc Hb)),
              (proj1 (@exact_prices_spec pool c a E Hc Ha)), !ltb_Q_false. lra.
    + intros a b Ha Hb. cbv beta.
      rewrite (proj1 (@exact_prices_spec pool a b E Ha Hb)),
              (proj1 (@exact_prices_spec pool b a E Hb Ha)), ltb_Q_true, ltb_Q_false. lra.
    + intros a b _ _ H. exact H.
  - apply std_sort_sorted_in with (pool := pool); [| | |apply incl_refl].
    + intros a b c Ha Hb Hc. cbv beta.
      rewrite (proj2 (@exact_prices_spec pool b a E Hb Ha)),
              (proj2 (@exact_prices_spec pool c b E Hc Hb)),
              (proj2 (@exact_prices_spec pool c a E Hc Ha)), !ltb_Q_false. lra.
    + intros a b Ha Hb. cbv beta.
      rewrite (proj2 (@exact_prices_spec pool a b E Ha Hb)),
              (proj2 (@exact_prices_spec pool b a E Hb Ha)), ltb_Q_true, ltb_Q_false. lra.
    + intros a b _ _ H. exact H.
Qed.

(** Without ties the sort can leave one vector only. *)
Lemma sorted_for_unique (pool s1 s2 : list (Order float)) :
  exact_prices pool = true -> no_ties pool ->
  (sorted_for price_less pool s1 -> sorted_for price_less pool s2 -> s1 = s2) /\
  (sorted_for price_greater pool s1 -> sorted_for price_greater pool s2 -> s1 = s2).
Proof.
  intros E T. split; intros [P1 S1] [P2 S2].
  - apply sorted_perm_eq_in with (R := fun a b => price_less b a = false);
      [|rewrite <- P1; exact P2|exact S1|exact S2].
    intros a b Ha Hb.
    assert (Ia : In a pool) by (eapply Permutation_in; [symmetry; exact P1 | exact Ha]).
    assert (Ib : In b pool) by (eapply Permutation_in; [symmetry; exact P1 | exact Hb]).
    rewrite (proj1 (@exact_prices_spec pool b a E Ib Ia)),
            (proj1 (@exact_prices_spec pool a b E Ia Ib)), !ltb_Q_false.
    intros L1 L2. destruct (T a b Ia Ib) as [->|N]; [reflexivity|].
    exfalso. apply N. now apply Qle_antisym.
  - apply sorted_perm_eq_in with (R := fun a b => price_greater b a = false);
      [|rewrite <- P1; exact P2|exact S1|exact S2].
    intros a b Ha Hb.
    assert (Ia : In a pool) by (eapply Permutation_in; [symmetry; exact P1 | exact Ha]).
    assert (Ib : In b pool) by (eapply Permutation_in; [symmetry; exact P1 | exact Hb]).
    rewrite (proj2 (@exact_prices_spec pool b a E Ib Ia)),
            (proj2 (@exact_prices_spec pool a b E Ia Ib)), !ltb_Q_false.
    intros L1 L2. destruct (T a b Ia Ib) as [->|N]; [reflexivity|].
    exfalso. apply N. now apply Qle_antisym.
Qed.

Lemma StronglySorted_map_in (R : Order float -> Order float -> Prop)
      (R' : Order Q -> Order Q -> Prop) (s : list (Order float)) :
  (forall a b, In a s -> In b s -> R a b -> R' (Qorder a) (Qorder b)) ->
  StronglySorted R s -> StronglySorted R' (Qpool s).
Proof.
  intros H S. induction S as [|a s S IH Fa]; cbn [Qpool map]; [constructor|].
  constructor.
  - apply IH. intros x y Hx Hy. apply H; now right.
  - rewrite Forall_forall in *. intros y' Hy'.
    apply in_map_iff in Hy'. destruct Hy' as (y & <- & Hy).
    apply H; [now left | now right | auto].
Qed.

(** A vector the sort may leave, read as rationals, is sorted by price and
    holds the values of the pool. *)
Lemma sorted_for_Qpool (pool s : list (Order float)) :
  exact_prices pool = true ->
  (sorted_for price_less pool s ->
   Permutation (Qpool pool) (Qpool s) /\ StronglySorted price_le (Qpool s)) /\
  (sorted_for price_greater pool s ->
   Permutation (Qpool pool) (Qpool s) /\ StronglySorted price_ge (Qpool s)).
Proof.
  intro E. split; intros [P S]; (split; [now apply Permutation_map|]).
  - apply StronglySorted_map_in with (R := fun a b => price_less b a = false);
      [|exact S]. intros a b Ha Hb.
    assert (Ia : In a pool) by (eapply Permutation_in; [symmetry; exact P | exact Ha]).
    assert (Ib : In b pool) by (eapply Permutation_in; [symmetry; exact P | exact Hb]).
    rewrite (proj1 (@exact_prices_spec pool b a E Ib Ia)), ltb_Q_false.
    unfold price_le. cbn. auto.
  - apply StronglySorted_map_in with (R := fun a b => price_greater b a = false);
      [|exact S]. intros a b Ha Hb.
    assert (Ia : In a pool) by (eapply Permutation_in; [symmetry; exact P | exact Ha]).
    assert (Ib : In b pool) by (eapply Permutation_in; [symmetry; exact P | exact Hb]).
    rewrite (proj2 (@exact_prices_spec pool b a E Ib Ia)), ltb_Q_false.
    unfold price_ge. cbn. auto.
Qed.

(** In exact arithmetic, the locals at the [return] are the same for every
    sorted arrangement of a pool. *)
Lemma sorted_locals_unique (l1 l2 : list (Order Q)) (q : Q) :
  Forall nonneg_qty l1 -> Permutation l1 l2 ->
  (StronglySorted price_le l1 /\ StronglySorted price_le l2) \/
  (StronglySorted price_ge l1 /\ StronglySorted price_ge l2) ->
  fst (walk l1 q 0) == fst (walk l2 q 0) /\
  snd (walk l1 q 0) == snd (walk l2 q 0).
Proof.
  intros F P [[S1 S2]|[S1 S2]].
  - apply tie_equiv_walk; [|exact F].
    apply sorted_tie_equiv with (R := price_le); auto.
    unfold price_le. intros; lra.
  - apply tie_equiv_walk; [|exact F].
    apply sorted_tie_equiv with (R := price_ge); auto.
    unfold price_ge. intros; lra.
Qed.

(** The loop of [executeBuy], run on doubles over any vector the sort may
    leave, returns finite numbers whose values are those of exact
    arithmetic on the values of the arguments, when it does not round;
    and so for [executeSell]. *)
Lemma buy_run_exact (asks s : list (Order float)) (q : float) :
  exact_prices asks = true -> sorted_for price_less asks s ->
  exact_run s q = true -> Forall nonneg_qty (Qpool asks) ->
  finite (snd (walk s q zero)) = true /\
  valQ (fst (walk s q zero)) == fst (executeBuy_locals (Qpool asks) (valQ q)) /\
  valQ (snd (walk s q zero)) == snd (executeBuy (Qpool asks) (valQ q)).
Proof.
  intros Ep S E F. unfold exact_run in E. apply andb_true_iff in E.
  destruct E as [Fq Ew].
  destruct (@walk_exact s q zero (valQ q) 0 Ew Fq eq_refl (Qeq_refl _) (Qeq_refl _))
    as [[_ Fin] [A B]].
  destruct (proj1 (@sorted_for_Qpool _ s Ep) S) as [P Ss].
  assert (U : fst (walk (Qpool s) (valQ q) 0)
              == fst (walk (std_sort price_less (Qpool asks)) (valQ q) 0) /\
              snd (walk (Qpool s) (valQ q) 0)
              == snd (walk (std_sort price_less (Qpool asks)) (valQ q) 0)).
  { apply sorted_locals_unique.
    - eapply Permutation_Forall; [exact P | exact F].
    - rewrite std_sort_perm. symmetry. exact P.
    - left. split; [exact Ss | apply sort_ascending]. }
  unfold executeBuy, executeBuy_locals. cbn [snd zero Q_ops].
  split; [exact Fin|]. split; [rewrite A; apply U | rewrite B; apply U].
Qed.

Lemma sell_run_exact (bids s : list (Order float)) (q : float) :
  exact_prices bids = true -> sorted_for price_greater bids s ->
  exact_run s q = true -> Forall nonneg_qty (Qpool bids) ->
  finite (snd (walk s q zero)) = true /\
  valQ (fst (walk s q zero)) == fst (executeSell_locals (Qpool bids) (valQ q)) /\
  valQ (snd (walk s q zero)) == snd (executeSell (Qpool bids) (valQ q)).
Proof.
  intros Ep S E F. unfold exact_run in E. apply andb_true_iff in E.
  destruct E as [Fq Ew].
  destruct (@walk_exact s q zero (valQ q) 0 Ew Fq eq_refl (Qeq_refl _) (Qeq_refl _))
    as [[_ Fin] [A B]].
  destruct (proj2 (@sorted_for_Qpool _ s Ep) S) as [P Ss].
  assert (U : fst (walk (Qpool s) (valQ q) 0)
              == fst (walk (std_sort price_greater (Qpool bids)) (valQ q) 0) /\
              snd (walk (Qpool s) (valQ q) 0)
              == snd (walk (std_sort price_greater (Qpool bids)) (valQ q) 0)).
  { apply sorted_locals_unique.
    - eapply Permutation_Forall; [exact P | exact F].
    - rewrite std_sort_perm. symmetry. exact P.
    - right. split; [exact Ss | apply sort_descending]. }
  unfold executeSell, executeSell_locals. cbn [snd zero Q_ops].
  split; [exact Fin|]. split; [rewrite A; apply U | rewrite B; apply U].
Qed.

(** The quoted pools, and the vectors the model's sort leaves them in. *)
Lemma asks_example_binary64_facts :
  exact_prices asks_example_binary64 = true /\
  Forall nonneg_price (Qpool asks_example_binary64) /\
  Forall nonneg_qty (Qpool asks_example_binary64) /\
  sorted_for price_less asks_example_binary64
    (std_sort price_less asks_example_binary64) /\
  sorted_for price_greater asks_example_binary64
    (std_sort price_greater asks_example_binary64).
Proof.
  assert (E : exact_prices asks_example_binary64 = true) by (vm_compute; reflexivity).
  split; [exact E|].
  split; [repeat constructor; unfold nonneg_price; vm_compute; discriminate|].
  split; [repeat constructor; unfold nonneg_qty; vm_compute; discriminate|].
  exact (@std_sort_sorted_for _ E).
Qed.

(** ** Partial fills on doubles *)




(** ** The order of the sources on doubles *)

(** C6, as the specification states it, fails on doubles when levels tie
    on price and the walk rounds.  [A] asks the price nearest 0.1 for the
    quantity nearest 0.2, [B] the same price for the quantity nearest 1.1;
    for quantity 1, [A] then [B] costs one unit in the last place more
    than [B] then [A], and so for the revenue of a sale against the same
    bids.  A sort of two elements that compare equal has nothing to move,
    so that the vectors walked are the pools as aggregated. *)
Lemma aggregate_order_rounding_counterexample :
  exact_prices (asks tie_book_A ++ asks tie_book_B) = true /\
  Forall nonneg_qty (Qpool (asks tie_book_A ++ asks tie_book_B)) /\
  fst (executeBuy (snd (aggregate tie_book_A tie_book_B)) 1%float)
  = snd (aggregate tie_book_A tie_book_B) /\
  fst (executeBuy (snd (aggregate tie_book_B tie_book_A)) 1%float)
  = snd (aggregate tie_book_B tie_book_A) /\
  snd (executeBuy (snd (aggregate tie_book_A tie_book_B)) 1%float)
  = 0x1.999999999999bp-4%float /\
  snd (executeBuy (snd (aggregate tie_book_B tie_book_A)) 1%float)
  = 0x1.999999999999ap-4%float /\
  PrimFloat.ltb (snd (executeBuy (snd (aggregate tie_book_B tie_book_A)) 1%float))
                (snd (executeBuy (snd (aggregate tie_book_A tie_book_B)) 1%float))
  = true /\
  PrimFloat.ltb (snd (executeSell (fst (aggregate tie_book_B tie_book_A)) 1%float))
                (snd (executeSell (fst (aggregate tie_book_A tie_book_B)) 1%float))
  = true.
Proof.
  split; [vm_compute; reflexivity|].
  split; [repeat constructor; unfold nonneg_qty; vm_compute; discriminate|].
  repeat split; vm_compute; reflexivity.
Qed.

(** C6, amended.  Aggregation is concatenation, source after source, so
    the pools of [A] then [B] and of [B] then [A] hold the same orders as
    often.  On doubles, with finite prices, let [s1] and [s2] be any
    vectors the sort of [executeBuy] may leave the two pools of asks in,
    and [t1] and [t2] any vectors the sort of [executeSell] may leave the
    two pools of bids in (the sorted vectors of the model are such).  When
    no two different levels of a pool have the same price, the two vectors
    are the same and the loop returns the very same cost (revenue) for
    every quantity, rounding or not; when levels tie on price, the two
    costs (revenues) have the same value provided the levels have
    non-negative quantity and no operation of the two runs rounds. *)
Theorem aggregate_order_binary64 (A B : OrderBook float)
  (s1 s2 t1 t2 : list (Order float)) (q : float)
  (Ea : exact_prices (asks A ++ asks B) = true)
  (Eb : exact_prices (bids A ++ bids B) = true)
  (S1 : sorted_for price_less (snd (aggregate A B)) s1)
  (S2 : sorted_for price_less (snd (aggregate B A)) s2)
  (T1 : sorted_for price_greater (fst (aggregate A B)) t1)
  (T2 : sorted_for price_greater (fst (aggregate B A)) t2) :
  aggregate A B = (bids A ++ bids B, asks A ++ asks B) /\
  Permutation (fst (aggregate A B)) (fst (aggregate B A)) /\
  Permutation (snd (aggregate A B)) (snd (aggregate B A)) /\
  (sorted_for price_less (snd (aggregate A B))
     (fst (executeBuy (snd (aggregate A B)) q)) /\
   sorted_for price_greater (fst (aggregate A B))
     (fst (executeSell (fst (aggregate A B)) q))) /\
  (no_ties (asks A ++ asks B) ->
   s1 = s2 /\ snd (walk s1 q zero) = snd (walk s2 q zero)) /\
  (no_ties (bids A ++ bids B) ->
   t1 = t2 /\ snd (walk t1 q zero) = snd (walk t2 q zero)) /\
  (Forall nonneg_qty (Qpool (asks A ++ asks B)) ->
   exact_run s1 q = true -> exact_run s2 q = true ->
   valQ (snd (walk s1 q zero)) == valQ (snd (walk s2 q zero))) /\
  (Forall nonneg_qty (Qpool (bids A ++ bids B)) ->
   exact_run t1 q = true -> exact_run t2 q = true ->
   valQ (snd (walk t1 q zero)) == valQ (snd (walk t2 q zero))).
Proof.
  unfold aggregate in *. cbn [fst snd] in *.
  assert (S2' : sorted_for price_less (asks A ++ asks B) s2).
  { destruct S2 as [P2 Ss2]. split; [|exact Ss2].
    rewrite <- P2. apply Permutation_app_comm. }
  assert (T2' : sorted_for price_greater (bids A ++ bids B) t2).
  { destruct T2 as [P2 Ss2]. split; [|exact Ss2].
    rewrite <- P2. apply Permutation_app_comm. }
  split; [reflexivity|].
  split; [apply Permutation_app_comm|]. split; [apply Permutation_app_comm|].
  split; [split; [exact (proj1 (@std_sort_sorted_for _ Ea))
                 | exact (proj2 (@std_sort_sorted_for _ Eb))]|].
  split; [|split; [|split]].
  - intro T.
    assert (E : s1 = s2)
      by exact (proj1 (@sorted_for_unique _ s1 s2 Ea T) S1 S2').
    split; [exact E | now rewrite E].
  - intro T.
    assert (E : t1 = t2)
      by exact (proj2 (@sorted_for_unique _ t1 t2 Eb T) T1 T2').
    split; [exact E | now rewrite E].
  - intros F E1 E2.
    destruct (@buy_run_exact _ s1 q Ea S1 E1 F) as (_ & _ & ->).
    destruct (@buy_run_exact _ s2 q Ea S2' E2 F) as (_ & _ & ->).
    reflexivity.
  - intros F E1 E2.
    destruct (@sell_run_exact _ t1 q Eb T1 E1 F) as (_ & _ & ->).
    destruct (@sell_run_exact _ t2 q Eb T2' E2 F) as (_ & _ & ->).
    reflexivity.
Qed.

Lemma books64_no_ties :
  no_ties (asks book_A64 ++ asks book_B64) /\
  no_ties (bids book_A64 ++ bids book_B64).
Proof.
  split; intros a b Ha Hb; cbn in Ha, Hb;
    repeat (destruct Ha as [<-|Ha]; [|]); try contradiction;
    repeat (destruct Hb as [<-|Hb]; [|]); try contradiction;
    first [ left; reflexivity | right; vm_compute; discriminate ].
Qed.

Lemma books64_facts (A B : OrderBook float) :
  exact_prices (asks A ++ asks B) = true ->
  exact_prices (asks B ++ asks A) = true ->
  exact_prices (bids A ++ bids B) = true ->
  exact_prices (bids B ++ bids A) = true ->
  sorted_for price_less (snd (aggregate A B))
    (fst (executeBuy (snd (aggregate A B)) 1%float)) /\
  sorted_for price_less (snd (aggregate B A))
    (fst (executeBuy (snd (aggregate B A)) 1%float)) /\
  sorted_for price_greater (fst (aggregate A B))
    (fst (executeSell (fst (aggregate A B)) 1%float)) /\
  sorted_for price_greater (fst (aggregate B A))
    (fst (executeSell (fst (aggregate B A)) 1%float)).
Proof.
  intros E1 E2 E3 E4. unfold aggregate, executeBuy, executeSell. cbn [fst snd].
  split; [exact (proj1 (@std_sort_sorted_for _ E1))|].
  split; [exact (proj1 (@std_sort_sorted_for _ E2))|].
  split; [exact (proj2 (@std_sort_sorted_for _ E3))
         | exact (proj2 (@std_sort_sorted_for _ E4))].
Qed.

Lemma books64_nonneg :
  Forall nonneg_qty (Qpool (asks book_A64 ++ asks book_C64)) /\
  Forall nonneg_qty (Qpool (bids book_A64 ++ bids book_C64)).
Proof.
  split; repeat constructor; unfold nonneg_qty; vm_compute; discriminate.
Qed.

Lemma aggregate_order_binary64_witness :
  (exact_prices (asks book_A64 ++ asks book_B64) = true /\
   exact_prices (bids book_A64 ++ bids book_B64) = true /\
   no_ties (asks book_A64 ++ asks book_B64) /\
   snd (executeBuy (snd (aggregate book_A64 book_B64)) 1%float)
   = snd (executeBuy (snd (aggregate book_B64 book_A64)) 1%float)) /\
  (exact_prices (asks book_A64 ++ asks book_C64) = true /\
   exact_prices (bids book_A64 ++ bids book_C64) = true /\
   exact_run (fst (executeBuy (snd (aggregate book_A64 book_C64)) 1%float)) 1%float
   = true /\
   exact_run (fst (executeBuy (snd (aggregate book_C64 book_A64)) 1%float)) 1%float
   = true /\
   valQ (snd (executeBuy (snd (aggregate book_A64 book_C64)) 1%float))
   == valQ (snd (executeBuy (snd (aggregate book_C64 book_A64)) 1%float))).
Proof.
  destruct (@books64_facts book_A64 book_B64 eq_refl eq_refl eq_refl eq_refl)
    as (S1 & S2 & T1 & T2).
  destruct (@books64_facts book_A64 book_C64 eq_refl eq_refl eq_refl eq_refl)
    as (U1 & U2 & V1 & V2).
  split.
  - split; [vm_compute; reflexivity|]. split; [vm_compute; reflexivity|].
    split; [exact (proj1 books64_no_ties)|].
    exact (proj2 (proj1 (proj2 (proj2 (proj2 (proj2
             (@aggregate_order_binary64 book_A64 book_B64 _ _ _ _ 1%float
                eq_refl eq_refl S1 S2 T1 T2)))))
             (proj1 books64_no_ties))).
  - split; [vm_compute; reflexivity|]. split; [vm_compute; reflexivity|].
    split; [vm_compute; reflexivity|]. split; [vm_compute; reflexivity|].
    exact (proj1 (proj2 (proj2 (proj2 (proj2 (proj2 (proj2
             (@aggregate_order_binary64 book_A64 book_C64 _ _ _ _ 1%float
                eq_refl eq_refl U1 U2 V1 V2)))))))
             (proj1 books64_nonneg) eq_refl eq_refl).
Defined.

(** ** The sorted walks on doubles *)

Lemma exact_run_finite (s : list (Order float)) (q : float) :
  exact_run s q = true -> finite q = true /\ exact_walk s q zero = true.
Proof. unfold exact_run. rewrite andb_true_iff. tauto. Qed.

(** X1. The sort is what makes the buy cheapest and the sale dearest, on
    doubles too when nothing rounds.  For a pool of finite prices and
    non-negative quantities and a quantity [q >= 0], let [sb] be any
    vector the sort of [executeBuy] may leave the pool in, [ss] any vector
    the sort of [executeSell] may leave it in (the sorted vectors of the
    model are such), and [visited] the pool in any order at all.  If no
    operation rounds in the three runs of the loop, the cost of the buy is
    at most the result of the loop over [visited], and the revenue of the
    sale at least. *)
Theorem execute_best_order_binary64 (pool sb ss visited : list (Order float))
  (q : float)
  (Ep : exact_prices pool = true)
  (Sb : sorted_for price_less pool sb) (Ss : sorted_for price_greater pool ss)
  (P : Permutation pool visited) (F : Forall nonneg_qty (Qpool pool))
  (Hq : 0 <= valQ q)
  (Eb : exact_run sb q = true) (Es : exact_run ss q = true)
  (Ev : exact_run visited q = true) :
  valQ (snd (walk sb q zero)) <= valQ (snd (walk visited q zero)) /\
  valQ (snd (walk visited q zero)) <= valQ (snd (walk ss q zero)).
Proof.
  destruct (@buy_run_exact pool sb q Ep Sb Eb F) as (_ & _ & ->).
  destruct (@sell_run_exact pool ss q Ep Ss Es F) as (_ & _ & ->).
  destruct (exact_run_finite _ _ Ev) as [Fq Ew].
  destruct (@walk_exact visited q zero (valQ q) 0 Ew Fq eq_refl
              (Qeq_refl _) (Qeq_refl _)) as (_ & _ & ->).
  apply walk_between_sorted; [exact F | | exact Hq].
  now apply Permutation_map.
Qed.

Lemma execute_best_order_binary64_witness :
  exact_run (fst (executeBuy asks_example_binary64 1%float)) 1%float = true /\
  exact_run (fst (executeSell asks_example_binary64 1%float)) 1%float = true /\
  exact_run (rev asks_example_binary64) 1%float = true /\
  valQ (snd (executeBuy asks_example_binary64 1%float))
  <= valQ (snd (walk (rev asks_example_binary64) 1%float zero)) /\
  valQ (snd (walk (rev asks_example_binary64) 1%float zero))
  <= valQ (snd (executeSell asks_example_binary64 1%float)).
Proof.
  destruct asks_example_binary64_facts as (Ep & _ & F & Sb & Ss).
  split; [vm_compute; reflexivity|]. split; [vm_compute; reflexivity|].
  split; [vm_compute; reflexivity|].
  apply (@execute_best_order_binary64 asks_example_binary64
           (std_sort price_less asks_example_binary64)
           (std_sort price_greater asks_example_binary64)
           (rev asks_example_binary64) 1%float);
    [ exact Ep | exact Sb | exact Ss | apply Permutation_rev | exact F
    | vm_compute; discriminate | reflexivity | reflexivity | reflexivity ].
Defined.

(** X2. On one pool of finite prices and non-negative quantities and for
    one quantity [q >= 0], the cost [executeBuy] returns on doubles is
    never more than the revenue [executeSell] returns, when no operation
    of the two calls rounds: whichever vectors [sb] and [ss] the two sorts
    leave. *)
Theorem buy_cost_le_sell_revenue_binary64 (pool sb ss : list (Order float))
  (q : float)
  (Ep : exact_prices pool = true)
  (Sb : sorted_for price_less pool sb) (Ss : sorted_for price_greater pool ss)
  (F : Forall nonneg_qty (Qpool pool)) (Hq : 0 <= valQ q)
  (Eb : exact_run sb q = true) (Es : exact_run ss q = true) :
  valQ (snd (walk sb q zero)) <= valQ (snd (walk ss q zero)).
Proof.
  destruct (@buy_run_exact pool sb q Ep Sb Eb F) as (_ & _ & ->).
  destruct (@sell_run_exact pool ss q Ep Ss Es F) as (_ & _ & ->).
  destruct (@walk_between_sorted (Qpool pool) (Qpool pool) (valQ q) F
              (Permutation_refl _) Hq). lra.
Qed.

Lemma buy_cost_le_sell_revenue_binary64_witness :
  exact_run (fst (executeBuy asks_example_binary64 1%float)) 1%float = true /\
  exact_run (fst (executeSell asks_example_binary64 1%float)) 1%float = true /\
  snd (executeBuy asks_example_binary64 1%float) = 50005%float /\
  snd (executeSell asks_example_binary64 1%float) = 50010%float /\
  valQ (snd (executeBuy asks_example_binary64 1%float))
  <= valQ (snd (executeSell asks_example_binary64 1%float)).
Proof.
  destruct asks_example_binary64_facts as (Ep & _ & F & Sb & Ss).
  split; [vm_compute; reflexivity|]. split; [vm_compute; reflexivity|].
  split; [vm_compute; reflexivity|]. split; [vm_compute; reflexivity|].
  apply (@buy_cost_le_sell_revenue_binary64 asks_example_binary64
           (std_sort price_less asks_example_binary64)
           (std_sort price_greater asks_example_binary64) 1%float);
    [ exact Ep | exact Sb | exact Ss | exact F | vm_compute; discriminate
    | reflexivity | reflexivity ].
Defined.

(** X3. On doubles, when no operation of the calls rounds, what holds of a
    buy holds of a sale.  For bids of finite, non-negative prices and
    non-negative quantities, and whichever vectors [t1] and [t2] the sort
    of [executeSell] leaves in the two calls: the revenue does not
    decrease when the quantity grows from [q1 >= 0] to [q2 >= q1];
    [executeSell] never consumes more than the total quantity bid; and
    when that total is less than the quantity asked, the revenue is the
    sum of [quantity * price] over all bids. *)
Theorem executeSell_monotone_partial_binary64
  (bids t1 t2 : list (Order float)) (q1 q2 : float)
  (Ep : exact_prices bids = true)
  (T1 : sorted_for price_greater bids t1) (T2 : sorted_for price_greater bids t2)
  (Fp : Forall nonneg_price (Qpool bids)) (Fq : Forall nonneg_qty (Qpool bids))
  (H1 : 0 <= valQ q1) (H12 : valQ q1 <= valQ q2)
  (E1 : exact_run t1 q1 = true) (E2 : exact_run t2 q2 = true) :
  valQ (snd (walk t1 q1 zero)) <= valQ (snd (walk t2 q2 zero)) /\
  valQ q2 - valQ (fst (walk t2 q2 zero)) <= total_qty (Qpool bids) /\
  (total_qty (Qpool bids) < valQ q2 ->
   valQ (snd (walk t2 q2 zero)) == total_value (Qpool bids)).
Proof.
  destruct (@sell_run_exact bids t1 q1 Ep T1 E1 Fq) as (_ & _ & ->).
  destruct (@sell_run_exact bids t2 q2 Ep T2 E2 Fq) as (_ & -> & ->).
  now apply executeSell_monotone_partial.
Qed.

Lemma executeSell_monotone_partial_binary64_witness :
  exact_run (fst (executeSell asks_example_binary64 1%float)) 1%float = true /\
  exact_run (fst (executeSell asks_example_binary64 3%float)) 3%float = true /\
  total_qty (Qpool asks_example_binary64) < valQ 3%float /\
  valQ (snd (executeSell asks_example_binary64 1%float))
  <= valQ (snd (executeSell asks_example_binary64 3%float)) /\
  valQ (snd (executeSell asks_example_binary64 3%float))
  == total_value (Qpool asks_example_binary64).
Proof.
  destruct asks_example_binary64_facts as (Ep & Fp & F & _ & Ss).
  split; [vm_compute; reflexivity|]. split; [vm_compute; reflexivity|].
  split; [reflexivity|].
  assert (W := @executeSell_monotone_partial_binary64 asks_example_binary64
                 (std_sort price_greater asks_example_binary64)
                 (std_sort price_greater asks_example_binary64)
                 1%float 3%float Ep Ss Ss Fp F).
  assert (H1 : 0 <= valQ 1%float) by (vm_compute; discriminate).
  assert (H12 : valQ 1%float <= valQ 3%float) by (vm_compute; discriminate).
  specialize (W H1 H12 eq_refl eq_refl).
  exact (conj (proj1 W) (proj2 (proj2 W) eq_refl)).
Defined.

(** X4. Liquidity beyond the fill does not change the price of a buy, on
    doubles too when nothing rounds: when the asks, of finite prices and
    non-negative quantities, hold at least the quantity asked ([0 < q]),
    adding asks priced no lower than any of them leaves the value of the
    cost of [executeBuy] as it was, if no operation of the two calls
    rounds, whichever vectors [s1] and [s2] the sort leaves in them. *)
Theorem deeper_asks_irrelevant_binary64 (asks deeper s1 s2 : list (Order float))
  (q : float)
  (Ep1 : exact_prices (asks ++ deeper) = true) (Ep2 : exact_prices asks = true)
  (S1 : sorted_for price_less (asks ++ deeper) s1)
  (S2 : sorted_for price_less asks s2)
  (Fa : Forall nonneg_qty (Qpool asks)) (Fd : Forall nonneg_qty (Qpool deeper))
  (Hq : 0 < valQ q) (Ht : valQ q <= total_qty (Qpool asks))
  (Hp : forall a d, In a (Qpool asks) -> In d (Qpool deeper) -> price a <= price d)
  (E1 : exact_run s1 q = true) (E2 : exact_run s2 q = true) :
  valQ (snd (walk s1 q zero)) == valQ (snd (walk s2 q zero)).
Proof.
  assert (F : Forall nonneg_qty (Qpool (asks ++ deeper)))
    by (rewrite Qpool_app; apply Forall_app; now split).
  destruct (@buy_run_exact _ s1 q Ep1 S1 E1 F) as (_ & _ & ->).
  destruct (@buy_run_exact _ s2 q Ep2 S2 E2 Fa) as (_ & _ & ->).
  rewrite Qpool_app. now apply deeper_asks_irrelevant.
Qed.

Lemma deeper_asks_irrelevant_binary64_witness :
  exact_run (fst (executeBuy (asks_example_binary64 ++ [mkOrder 50020%float 3%float])
                    2%float)) 2%float = true /\
  exact_run (fst (executeBuy asks_example_binary64 2%float)) 2%float = true /\
  valQ (snd (executeBuy (asks_example_binary64 ++ [mkOrder 50020%float 3%float]) 2%float))
  == valQ (snd (executeBuy asks_example_binary64 2%float)).
Proof.
  destruct asks_example_binary64_facts as (Ep & _ & F & Sb & _).
  split; [vm_compute; reflexivity|]. split; [vm_compute; reflexivity|].
  apply (@deeper_asks_irrelevant_binary64 asks_example_binary64
           [mkOrder 50020%float 3%float]
           (std_sort price_less (asks_example_binary64 ++ [mkOrder 50020%float 3%float]))
           (std_sort price_less asks_example_binary64) 2%float).
  - reflexivity.
  - exact Ep.
  - apply std_sort_sorted_for. reflexivity.
  - exact Sb.
  - exact F.
  - repeat constructor. unfold nonneg_qty. vm_compute. discriminate.
  - reflexivity.
  - vm_compute. discriminate.
  - intros a d [<-|[<-|[]]] [<-|[]]; vm_compute; discriminate.
  - reflexivity.
  - reflexivity.
Defined.

Lemma asks_example_binary64_prices :
  Forall (fun o => 50000 <= price o /\ price o <= 50010) (Qpool asks_example_binary64).
Proof. repeat constructor; vm_compute; discriminate. Qed.

(** X5. On doubles, when no operation of the calls rounds, the cost of a
    buy and the revenue of a sale lie between the lowest and the highest
    price of the pool, times the quantity filled (the quantity asked minus
    the local [qty] at the [return]): for levels of non-negative quantity
    whose prices are finite and lie in [[lo, hi]], for [q >= 0], and
    whichever vectors [sb] and [ss] the two sorts leave. *)
Theorem execute_price_bounds_binary64 (lo hi : Q) (pool sb ss : list (Order float))
  (q : float)
  (Ep : exact_prices pool = true)
  (Sb : sorted_for price_less pool sb) (Ss : sorted_for price_greater pool ss)
  (F : Forall nonneg_qty (Qpool pool))
  (B : Forall (fun o => lo <= price o /\ price o <= hi) (Qpool pool))
  (Hq : 0 <= valQ q)
  (Eb : exact_run sb q = true) (Es : exact_run ss q = true) :
  lo * (valQ q - valQ (fst (walk sb q zero))) <= valQ (snd (walk sb q zero)) /\
  valQ (snd (walk sb q zero)) <= hi * (valQ q - valQ (fst (walk sb q zero))) /\
  lo * (valQ q - valQ (fst (walk ss q zero))) <= valQ (snd (walk ss q zero)) /\
  valQ (snd (walk ss q zero)) <= hi * (valQ q - valQ (fst (walk ss q zero))).
Proof.
  destruct (@buy_run_exact pool sb q Ep Sb Eb F) as (_ & -> & ->).
  destruct (@sell_run_exact pool ss q Ep Ss Es F) as (_ & -> & ->).
  now apply execute_price_bounds.
Qed.

Lemma execute_price_bounds_binary64_witness :
  exact_run (fst (executeBuy asks_example_binary64 1%float)) 1%float = true /\
  exact_run (fst (executeSell asks_example_binary64 1%float)) 1%float = true /\
  50000 * (valQ 1%float - valQ (fst (executeBuy_locals asks_example_binary64 1%float)))
  <= valQ (snd (executeBuy asks_example_binary64 1%float)) /\
  valQ (snd (executeBuy asks_example_binary64 1%float))
  <= 50010 * (valQ 1%float - valQ (fst (executeBuy_locals asks_example_binary64 1%float))).
Proof.
  destruct asks_example_binary64_facts as (Ep & _ & F & Sb & Ss).
  split; [vm_compute; reflexivity|]. split; [vm_compute; reflexivity|].
  assert (Hq : 0 <= valQ 1%float) by (vm_compute; discriminate).
  assert (W := @execute_price_bounds_binary64 50000 50010 asks_example_binary64
                 (std_sort price_less asks_example_binary64)
                 (std_sort price_greater asks_example_binary64) 1%float
                 Ep Sb Ss F asks_example_binary64_prices Hq eq_refl eq_refl).
  exact (conj (proj1 W) (proj1 (proj2 W))).
Defined.

(** ** Concurrent callers *)

Lemma step_cell_le (s s' : RateLimiter.system) :
  RateLimiter.step s s' -> (RateLimiter.cell s <= RateLimiter.cell s')%Z.
Proof.
  intro St. destruct St as [s k n L|s k n last L D|s k n last L C];
    cbn [RateLimiter.cell]; try lia.
  unfold RateLimiter.compare_exchange_strong, RateLimiter.cooldown in *.
  destruct (Z.eqb_spec (RateLimiter.cell s) last); cbn [snd]; lia.
Qed.

(** X9. In every interleaving of concurrent callers the time the limiter
    holds never goes back: it is never earlier than the time it started
    from, no step decreases it, and a step changes it only by granting a
    caller, to that caller's reading, at least a cooldown later than the
    time held. *)
Theorem cell_never_decreases (c0 : Z) (s s' : RateLimiter.system)
  (R : RateLimiter.reachable c0 s) (St : RateLimiter.step s s') :
  (c0 <= RateLimiter.cell s)%Z /\
  (RateLimiter.cell s <= RateLimiter.cell s')%Z /\
  (RateLimiter.cell s <> RateLimiter.cell s' ->
   (RateLimiter.cooldown <= RateLimiter.cell s' - RateLimiter.cell s)%Z /\
   exists i, RateLimiter.granted s' i (RateLimiter.cell s') /\
             RateLimiter.callers s i
             = RateLimiter.Loaded (RateLimiter.cell s') (RateLimiter.cell s)).
Proof.
  split; [|split].
  - clear St. induction R as [|s0 s1 _ IH St0]; [cbn; lia|].
    pose proof (step_cell_le St0). lia.
  - now apply step_cell_le.
  - destruct St as [s k n L|s k n last L C|s k n last L C];
      cbn [RateLimiter.cell RateLimiter.callers]; try congruence.
    unfold RateLimiter.compare_exchange_strong, RateLimiter.granted.
    cbn [RateLimiter.callers].
    destruct (Z.eqb_spec (RateLimiter.cell s) last) as [->|N]; cbn [fst snd];
      [|congruence].
    intros _. split; [lia|]. exists k.
    rewrite RateLimiterFacts.set_caller_same. split; [reflexivity | exact L].
Qed.

Lemma cell_never_decreases_witness :
  exists s s',
    RateLimiter.reachable 0 s /\ RateLimiter.step s s' /\
    RateLimiter.cell s = 0%Z /\ RateLimiter.cell s' = 5000000000%Z /\
    (RateLimiter.cooldown <= RateLimiter.cell s' - RateLimiter.cell s)%Z /\
    exists i, RateLimiter.granted s' i (RateLimiter.cell s').
Proof.
  pose (s0 := RateLimiter.mkSystem 0 (fun _ => RateLimiter.NotCalled)).
  pose (s1 := RateLimiter.mkSystem 0
                (RateLimiter.set_caller (RateLimiter.callers s0) 0
                   (RateLimiter.Loaded 5000000000 0))).
  pose (s2 := RateLimiter.mkSystem 0
                (RateLimiter.set_caller (RateLimiter.callers s1) 1
                   (RateLimiter.Loaded 5000000001 0))).
  assert (R2 : RateLimiter.reachable 0 s2).
  { eapply RateLimiter.reach_step.
    - eapply RateLimiter.reach_step; [apply RateLimiter.reach_init|].
      exact (RateLimiter.step_load s0 0%nat 5000000000 eq_refl).
    - exact (RateLimiter.step_load s1 1%nat 5000000001 eq_refl). }
  assert (C : (RateLimiter.cooldown <= 5000000000 - 0)%Z) by discriminate.
  pose proof (RateLimiter.step_exchange s2 0%nat (now := 5000000000) (last := 0)
                eq_refl C) as St.
  eexists. eexists. split; [exact R2|]. split; [exact St|].
  split; [reflexivity|]. split; [reflexivity|].
  destruct (@cell_never_decreases 0 _ _ R2 St) as (_ & _ & W).
  destruct W as [W1 [i [W2 _]]]; [discriminate|].
  split; [exact W1|]. exists i. exact W2.
Defined.
